(** * semchunk.boundaries: semantic boundary offsets and their adaptation

    A shallow embedding of [src/semchunk/boundaries.py]:
    - [get_split_offsets]       (the Boundary Offset Splitter),
    - [get_semantic_bounderies] (the Boundary Extractor),
    - [adapt_semantic_boundaries] (the Boundary Adapter).

    Python integers are unbounded, so offsets are [Z].  A Python [str] is a
    [string]; one [ascii] stands for one character, so [len] is
    [String.length].  Exceptions are values of [error], carried by [result].
    The lists that the Extractor mutates in place live in an explicit store,
    indexed by the identity of the list object. *)

From Stdlib Require Import List ZArith Lia Bool Arith String Ascii Sorted.
Import ListNotations.

Local Open Scope string_scope.
Local Open Scope Z_scope.

(** ** Exceptions *)

(** The exceptions the module can raise.  [AssertionError] is what the spec
    calls InvalidArgument, [ValueError] is what it calls UnknownGranularity;
    [IndexError] comes from [delimiters[0]] on an empty list. *)
Inductive error : Type :=
| IndexError
| AssertionError
| ValueError (msg : string).

Inductive result (A : Type) : Type :=
| Ok (a : A)
| Raise (e : error).
Arguments Ok {A} a.
Arguments Raise {A} e.

Definition bind {A B : Type} (m : result A) (k : A -> result B) : result B :=
  match m with
  | Ok a => k a
  | Raise e => Raise e
  end.

Notation "x <- m ;; k" := (bind m (fun x => k))
  (at level 61, m at next level, right associativity).
Notation "' pat <- m ;; k" := (bind m (fun x => let 'pat := x in k))
  (at level 61, pat pattern, m at next level, right associativity).

(** ** [re.split] on an alternation of escaped literals *)

Module Re.

(** The pattern is ["|".join(re.escape(d) for d in delimiters)]: an ordered
    choice between literal strings.  At one position the engine takes the
    first alternative that is a prefix of the remaining text; with
    [must_advance] set (the previous match was empty and ended here) an empty
    match at this position is refused.  The result is the length of the
    match. *)
Fixpoint match_here (alts : list string) (must_advance : bool) (s : string)
  : option nat :=
  match alts with
  | [] => None
  | d :: alts' =>
      if String.prefix d s
         && negb (must_advance && (String.length d =? 0)%nat)
      then Some (String.length d)
      else match_here alts' must_advance s
  end.

(** [split_from alts skip cur s]: the scan of [re.split] at the text suffix
    [s], where [cur] is the piece collected since the end of the last match
    and [skip] counts the characters of the current match that are still to be
    passed over.  A match closes the piece [cur]; after an empty match the
    search resumes at the same position with [must_advance] set; when the
    search fails at a position it moves one character on, and at the end of
    the text the last piece is returned, even when it is empty. *)
Fixpoint split_from (alts : list string) (skip : nat) (cur : string)
  (s : string) {struct s} : list string :=
  match skip with
  | S k =>
      match s with
      | String _ s' => split_from alts k cur s'
      | EmptyString => [cur]
      end
  | O =>
      match match_here alts false s with
      | None =>
          match s with
          | String c s' => split_from alts 0 (cur ++ String c "") s'
          | EmptyString => [cur]
          end
      | Some (S k) =>
          cur :: match s with
                 | String _ s' => split_from alts k "" s'
                 | EmptyString => [""]
                 end
      | Some O =>
          cur :: match match_here alts true s with
                 | Some (S k) =>
                     "" :: match s with
                           | String _ s' => split_from alts k "" s'
                           | EmptyString => [""]
                           end
                 | _ =>
                     match s with
                     | String c s' => split_from alts 0 (String c "") s'
                     | EmptyString => [""]
                     end
                 end
      end
  end.

(** [re.split(pattern, text)] for [pattern] the alternation of [alts]. *)
Definition split (alts : list string) (text : string) : list string :=
  split_from alts 0 "" text.

End Re.

(** ** The Boundary Offset Splitter *)

(** The body of the loop of [get_split_offsets]:
    [start_chars.append(start_char); start_char += len(p) + delimiter_len]. *)
Definition split_offsets_step (delimiter_len : Z) (st : Z * list Z)
  (p : string) : Z * list Z :=
  let '(start_char, start_chars) := st in
  (start_char + (Z.of_nat (String.length p) + delimiter_len),
   (start_chars ++ [start_char])%list).

(** [delimiters[0]] raises [IndexError] on an empty list; the [assert]
    compares the length of every later delimiter with the length of the
    first one; [re.split] runs after both. *)
Definition get_split_offsets (text : string) (delimiters : list string)
  : result (list Z) :=
  match delimiters with
  | [] => Raise IndexError
  | d0 :: rest =>
      let delimiter_len := String.length d0 in
      if forallb (fun d => (String.length d =? delimiter_len)%nat) rest
      then
        Ok (snd (fold_left (split_offsets_step (Z.of_nat delimiter_len))
                   (Re.split delimiters text) (0, [])))
      else Raise AssertionError
  end.

(** The offsets of a list of pieces, the first of which starts at
    [start_char]: what the loop of [get_split_offsets] appends
    ([split_offsets_loop]). *)
Fixpoint piece_offsets (delimiter_len start_char : Z) (pieces : list string)
  : list Z :=
  match pieces with
  | [] => []
  | p :: rest =>
      start_char
      :: piece_offsets delimiter_len
           (start_char + (Z.of_nat (String.length p) + delimiter_len)) rest
  end.

(** [d] occurs in [s]: it is a prefix of [s] or of one of its suffixes. *)
Fixpoint occurs (d s : string) : bool :=
  String.prefix d s
  || match s with
     | String _ s' => occurs d s'
     | EmptyString => false
     end.

(** No alternative matches at a position inside [p], where [p] is followed
    by [tail]. *)
Fixpoint no_match_before (alts : list string) (p tail : string) : bool :=
  match p with
  | EmptyString => true
  | String _ p' =>
      negb (existsb (fun d => String.prefix d (p ++ tail)) alts)
      && no_match_before alts p' tail
  end.

(** The leftmost, non-overlapping split of a text on non-empty alternatives:
    the first piece [p] ends where the leftmost match [d] begins, and the
    split goes on behind [d]; a text without a match is one piece. *)
Inductive leftmost_split (alts : list string) : string -> list string -> Prop :=
| leftmost_split_last (s : string) :
    (forall d, In d alts -> occurs d s = false) ->
    leftmost_split alts s [s]
| leftmost_split_match (p d rest : string) (pieces : list string) :
    In d alts ->
    no_match_before alts p (d ++ rest) = true ->
    leftmost_split alts rest pieces ->
    leftmost_split alts (p ++ d ++ rest) (p :: pieces).

(** ** The Boundary Extractor *)

(** *** Documents *)

(** What the Extractor reads of a spaCy annotation: a sentence span has a
    [start_char], a token has an [idx], and a [Doc] has its text, its
    sentences and its tokens. *)
Record Span : Type := { start_char : Z }.
Record Token : Type := { idx : Z }.

Module Doc.
Record t : Type := { text : string; sents : list Span; tokens : list Token }.
End Doc.

(** [doc: Union[Doc, str]], told apart by [type(doc) == str]. *)
Inductive document : Type :=
| PlainText (text : string)
| Annotated (doc : Doc.t).

Definition newline : ascii := ascii_of_nat 10.

(** The defaults of the keyword arguments. *)
Definition default_chunk_types : list string :=
  ["paragraphs"; "sentences"; "subparts"; "tokens"].
Definition default_sentence_boundary_chars : list string :=
  [". "; "? "; "! "].
Definition default_token_boundary_chars : list string := [" "].
Definition paragraph_boundary_chars : list string :=
  [String newline (String newline "")].
Definition subpart_boundary_chars : list string := [": "; "; "; ", "].

(** *** The store of list objects *)

(** The Python lists of one call, by identity.  [sentence_start_chars] and
    [token_start_chars] are created once, before the loop; every iteration
    that sees "paragraphs" or "subparts" creates a new list, named here by the
    index [k] of that iteration.  [boundaries] holds references to these
    objects: appending [sentence_start_chars] twice puts the same object at
    two levels. *)
Inductive list_id : Type :=
| sentence_start_chars
| token_start_chars
| paragraph_start_chars (k : nat)
| subpart_start_chars (k : nat).

Definition list_id_eqb (r1 r2 : list_id) : bool :=
  match r1, r2 with
  | sentence_start_chars, sentence_start_chars => true
  | token_start_chars, token_start_chars => true
  | paragraph_start_chars k1, paragraph_start_chars k2 => (k1 =? k2)%nat
  | subpart_start_chars k1, subpart_start_chars k2 => (k1 =? k2)%nat
  | _, _ => false
  end.

Definition store : Type := list_id -> list Z.

Definition store_set (h : store) (r : list_id) (v : list Z) : store :=
  fun r' => if list_id_eqb r' r then v else h r'.

Definition init_store (sents toks : list Z) : store :=
  fun r =>
    match r with
    | sentence_start_chars => sents
    | token_start_chars => toks
    | _ => []
    end.

(** *** [bisect.insort_left] *)

(** The loop of [bisect_left]:
    [while lo < hi: mid = (lo + hi) // 2;
       if a[mid] < x: lo = mid + 1 else: hi = mid].
    [hi - lo] decreases at every turn, so [hi - lo] turns are enough
    ([bisect_left_loop_fuel]). *)
Fixpoint bisect_left_loop (fuel : nat) (a : list Z) (x : Z) (lo hi : nat)
  : nat :=
  match fuel with
  | O => lo
  | S fuel' =>
      if (lo <? hi)%nat then
        let mid := ((lo + hi) / 2)%nat in
        if nth mid a 0 <? x
        then bisect_left_loop fuel' a x (mid + 1)%nat hi
        else bisect_left_loop fuel' a x lo mid
      else lo
  end.

Definition bisect_left (a : list Z) (x : Z) : nat :=
  bisect_left_loop (List.length a) a x 0 (List.length a).

(** [a.insert(i, x)] for [0 <= i <= len(a)]. *)
Definition list_insert (i : nat) (x : Z) (a : list Z) : list Z :=
  (firstn i a ++ x :: skipn i a)%list.

Definition insort_left (a : list Z) (x : Z) : list Z :=
  list_insert (bisect_left a x) x a.

(** [b in l]. *)
Definition contains (l : list Z) (b : Z) : bool := existsb (Z.eqb b) l.

(** *** The two loops of the Extractor *)

(** One iteration of the first loop: the list that is appended to
    [boundaries], and the store after the iteration. *)
Definition chunk_level (text : string) (k : nat) (chunk_type : string)
  (h : store) : result (list_id * store) :=
  if (chunk_type =? "paragraphs")%string then
    paragraph_start <- get_split_offsets text paragraph_boundary_chars ;;
    Ok (paragraph_start_chars k,
        store_set h (paragraph_start_chars k) paragraph_start)
  else if (chunk_type =? "sentences")%string then
    Ok (sentence_start_chars, h)
  else if (chunk_type =? "subparts")%string then
    subpart_start <- get_split_offsets text subpart_boundary_chars ;;
    Ok (subpart_start_chars k,
        store_set h (subpart_start_chars k) subpart_start)
  else if (chunk_type =? "tokens")%string then
    Ok (token_start_chars, h)
  else Raise (ValueError ("Unknown chunk type: " ++ chunk_type)).

(** The first loop, from iteration [k] on: the references appended to
    [boundaries], in order, and the store at the end. *)
Fixpoint collect_levels (text : string) (chunk_types : list string) (k : nat)
  (h : store) : result (list list_id * store) :=
  match chunk_types with
  | [] => Ok ([], h)
  | chunk_type :: rest =>
      '(r, h1) <- chunk_level text k chunk_type h ;;
      '(rs, h2) <- collect_levels text rest (S k) h1 ;;
      Ok (r :: rs, h2)
  end.

(** [if b not in boundaries[j]: insort_left(boundaries[j], b)], where
    [boundaries[j]] is the object [rj]. *)
Definition insert_missing (rj : list_id) (h : store) (b : Z) : store :=
  if contains (h rj) b then h else store_set h rj (insort_left (h rj) b).

(** [for b in boundaries[i]: ...] for the objects [ri] and [rj].  The body
    writes to [rj] only.  When [ri] and [rj] are two objects the list
    iterated over does not change; when they are the same object every [b]
    is found in it and nothing is written ([propagate_same]).  So the loop
    runs over the elements that [ri] has on entry. *)
Definition propagate (h : store) (ri rj : list_id) : store :=
  fold_left (insert_missing rj) (h ri) h.

(** [for i in range(0, len(boundaries)-1):
       for j in range(i+1, len(boundaries)): ...]. *)
Definition enforce_subsets (boundaries : list list_id) (h : store) : store :=
  let n := List.length boundaries in
  fold_left
    (fun h i =>
       fold_left
         (fun h j =>
            propagate h (nth i boundaries sentence_start_chars)
                        (nth j boundaries sentence_start_chars))
         (seq (i + 1) (n - (i + 1))) h)
    (seq 0 (n - 1)) h.

Definition get_semantic_bounderies (doc : document)
  (ordered_semantic_chunk_types : list string)
  (sentence_boundary_chars token_boundary_chars : list string)
  : result (list (list Z)) :=
  '(text, sentence_start, token_start) <-
    match doc with
    | PlainText text =>
        sentence_start <- get_split_offsets text sentence_boundary_chars ;;
        token_start <- get_split_offsets text token_boundary_chars ;;
        Ok (text, sentence_start, token_start)
    | Annotated d =>
        Ok (Doc.text d, map start_char (Doc.sents d),
            map idx (Doc.tokens d))
    end ;;
  '(boundaries, h) <-
    collect_levels text ordered_semantic_chunk_types 0
      (init_store sentence_start token_start) ;;
  Ok (map (enforce_subsets boundaries h) boundaries).

(** ** The Boundary Adapter *)

Section Adapter.

Variables (chunk_char_offset chunk_len added_chars_len added_chars_end_pos : Z).

(** [new_b = b - chunk_char_offset;
     if new_b >= added_chars_end_pos: new_b += added_chars_len]. *)
Definition shift_offset (b : Z) : Z :=
  let new_b := b - chunk_char_offset in
  if new_b >=? added_chars_end_pos then new_b + added_chars_len else new_b.

(** What one iteration of the inner loop does with [b]: append [new_b],
    go on to the next offset, or [break]. *)
Inductive outcome : Type :=
| Keep (new_b : Z)
| Skip
| Break.

Definition adapt_offset (b : Z) : outcome :=
  let new_b := shift_offset b in
  if (new_b >=? 0) && (new_b <=? chunk_len) then Keep new_b
  else if new_b >? chunk_len then Break
  else Skip.

(** The inner loop [for b in boundaries[i]: ...] with its [break]. *)
Fixpoint adapt_level (level : list Z) : list Z :=
  match level with
  | [] => []
  | b :: rest =>
      match adapt_offset b with
      | Keep new_b => new_b :: adapt_level rest
      | Skip => adapt_level rest
      | Break => []
      end
  end.

(** [if len(b) == 0 or b[0] != 0: b.insert(0, 0)]. *)
Definition add_start_boundary (b : list Z) : list Z :=
  match b with
  | [] => [0]
  | b0 :: _ => if b0 =? 0 then b else 0 :: b
  end.

(** The full scan the spec contrasts the early exit with: every offset of
    the level is shifted and tested against [0, chunk_len] on its own. *)
Definition adapt_level_full_scan (level : list Z) : list Z :=
  filter (fun new_b => (new_b >=? 0) && (new_b <=? chunk_len))
         (map shift_offset level).

End Adapter.

(** The two loops of [adapt_semantic_boundaries]: the levels are adapted one
    by one, then every adapted level gets its start boundary. *)
Definition adapt_semantic_boundaries (boundaries : list (list Z))
  (chunk_char_offset chunk_len added_chars_len added_chars_end_pos : Z)
  : list (list Z) :=
  map add_start_boundary
    (map (adapt_level chunk_char_offset chunk_len added_chars_len
            added_chars_end_pos) boundaries).

(** ** Properties of hierarchies *)

(** The subset invariant of a hierarchy: for levels [i < j], every offset of
    level [i] is an offset of level [j]. *)
Definition subset_invariant (levels : list (list Z)) : Prop :=
  forall i j li lj,
    (i < j)%nat ->
    nth_error levels i = Some li ->
    nth_error levels j = Some lj ->
    forall b, In b li -> In b lj.

(** Offsets in strictly ascending order. *)
Definition ascending (level : list Z) : Prop := Sorted Z.lt level.

(** A checker for the subset invariant, level by level. *)
Fixpoint subset_invariantb (levels : list (list Z)) : bool :=
  match levels with
  | [] => true
  | li :: finer =>
      forallb (fun lj => forallb (contains lj) li) finer
      && subset_invariantb finer
  end.

(** The granularity names the Extractor knows. *)
Definition known_chunk_types : list string :=
  ["paragraphs"; "sentences"; "subparts"; "tokens"].

(** The precondition of the Splitter: a non-empty list of delimiters of one
    length. *)
Definition uniform_delimiters (delimiters : list string) : Prop :=
  delimiters <> [] /\
  forall d1 d2, In d1 delimiters -> In d2 delimiters ->
                String.length d1 = String.length d2.

(** The delimiter arguments of the Extractor are used for plain text only;
    there they have to meet the precondition of the Splitter. *)
Definition delimiters_fit (doc : document)
  (sentence_boundary_chars token_boundary_chars : list string) : Prop :=
  match doc with
  | PlainText _ =>
      uniform_delimiters sentence_boundary_chars
      /\ uniform_delimiters token_boundary_chars
  | Annotated _ => True
  end.

(** The lists that exist before iteration [k] of the first loop. *)
Definition older (k : nat) (r : list_id) : Prop :=
  match r with
  | paragraph_start_chars j | subpart_start_chars j => (j < k)%nat
  | _ => True
  end.

(** The text of a document. *)
Definition document_text (doc : document) : string :=
  match doc with
  | PlainText text => text
  | Annotated d => Doc.text d
  end.

(** The two nested loops of [enforce_subsets], by recursion on the list of
    levels ([enforce_subsets_from]). *)
Fixpoint enforce_from (boundaries : list list_id) (h : store) : store :=
  match boundaries with
  | [] => h
  | ri :: finer =>
      enforce_from finer (fold_left (fun h rj => propagate h ri rj) finer h)
  end.

(** ** Properties of levels and documents *)

(** What the Adapter expects of a level, and what the spec calls a
    BoundarySet: offsets in strictly ascending order, the first of them 0. *)
Definition well_formed_level (level : list Z) : Prop :=
  ascending level /\ hd_error level = Some 0.

(** Delimiters that are not empty strings. *)
Definition proper_delimiters (delimiters : list string) : Prop :=
  forall d, In d delimiters -> d <> "".

(** A document whose sentence and token levels come out well-formed: a plain
    text split on delimiters that are not empty strings, or an annotation
    whose sentence and token starts are ascending from 0. *)
Definition well_formed_document (doc : document)
  (sentence_boundary_chars token_boundary_chars : list string) : Prop :=
  match doc with
  | PlainText _ =>
      proper_delimiters sentence_boundary_chars
      /\ proper_delimiters token_boundary_chars
  | Annotated d =>
      well_formed_level (map start_char (Doc.sents d))
      /\ well_formed_level (map idx (Doc.tokens d))
  end.

(** The length of text that a list of pieces spans when consecutive pieces
    are [delimiter_len] characters apart. *)
Fixpoint pieces_span (delimiter_len : Z) (pieces : list string) : Z :=
  match pieces with
  | [] => 0
  | p :: rest =>
      Z.of_nat (String.length p)
      + match rest with
        | [] => 0
        | _ :: _ => delimiter_len + pieces_span delimiter_len rest
        end
  end.

(** The offsets that an iteration of the first loop of the Extractor appends
    for [chunk_type], before the second loop adds to them
    ([collect_levels_raw]). *)
Definition raw_level (text : string) (sentence_start token_start : list Z)
  (chunk_type : string) : result (list Z) :=
  if (chunk_type =? "paragraphs")%string then
    get_split_offsets text paragraph_boundary_chars
  else if (chunk_type =? "sentences")%string then Ok sentence_start
  else if (chunk_type =? "subparts")%string then
    get_split_offsets text subpart_boundary_chars
  else if (chunk_type =? "tokens")%string then Ok token_start
  else Raise (ValueError ("Unknown chunk type: " ++ chunk_type)).

(** The sentence and token offsets that the Extractor starts from. *)
Definition document_starts (doc : document)
  (sentence_boundary_chars token_boundary_chars : list string)
  (sentence_start token_start : list Z) : Prop :=
  match doc with
  | PlainText text =>
      get_split_offsets text sentence_boundary_chars = Ok sentence_start
      /\ get_split_offsets text token_boundary_chars = Ok token_start
  | Annotated d =>
      sentence_start = map start_char (Doc.sents d)
      /\ token_start = map idx (Doc.tokens d)
  end.

(** ** The order of a request *)

(** The place of a granularity in the hierarchy paragraphs, sentences,
    subparts, tokens; the other names come last. *)
Definition chunk_rank (chunk_type : string) : nat :=
  if (chunk_type =? "paragraphs")%string then 0
  else if (chunk_type =? "sentences")%string then 1
  else if (chunk_type =? "subparts")%string then 2
  else if (chunk_type =? "tokens")%string then 3
  else 4.

(** What the docstring asks of [ordered_semantic_chunk_types]: the names are
    ordered from larger chunks to smaller ones.  A name may stand more than
    once. *)
Definition coarsest_first (chunk_types : list string) : Prop :=
  StronglySorted (fun a b => (chunk_rank a <= chunk_rank b)%nat) chunk_types.

(** Levels in which a list that stands at several levels stands at
    neighbouring ones only. *)
Inductive adjacent_repeats : list list_id -> Prop :=
| adjacent_repeats_nil : adjacent_repeats []
| adjacent_repeats_fresh (r : list_id) (finer : list list_id) :
    ~ In r finer -> adjacent_repeats finer -> adjacent_repeats (r :: finer)
| adjacent_repeats_same (r : list_id) (finer : list list_id) :
    adjacent_repeats (r :: finer) -> adjacent_repeats (r :: r :: finer).

(** * Theorems *)

Example split_ex1 :
  Re.split [". "; "? "; "! "] "a. b? c! " = ["a"; "b"; "c"; ""].
Proof. reflexivity. Qed.

Example split_ex2 : Re.split [""] "abc" = [""; "a"; "b"; "c"; ""].
Proof. reflexivity. Qed.

Example split_ex3 : Re.split [""] "" = [""; ""].
Proof. reflexivity. Qed.

Example split_ex4 : Re.split [" "] "a  b" = ["a"; ""; "b"].
Proof. reflexivity. Qed.

Example split_ex5 : Re.split ["ab"; "a"] "xaby" = ["x"; "y"].
Proof. reflexivity. Qed.

Example split_ex6 :
  Re.split [""; "a"] "bab" = [""; "b"; ""; ""; "b"; ""].
Proof. reflexivity. Qed.

Example split_ex7 : Re.split ["a"; ""] "bab" = [""; "b"; ""; "b"; ""].
Proof. reflexivity. Qed.

Example offsets_ex1 :
  get_split_offsets "a. b? c! " [". "; "? "; "! "] = Ok [0; 3; 6; 9].
Proof. reflexivity. Qed.

(** ** The Boundary Adapter *)

Section AdapterFacts.

Variables (chunk_char_offset chunk_len added_chars_len added_chars_end_pos : Z).

Local Abbreviation shift :=
  (shift_offset chunk_char_offset added_chars_len added_chars_end_pos).
Local Abbreviation step :=
  (adapt_offset chunk_char_offset chunk_len added_chars_len
     added_chars_end_pos).
Local Abbreviation scan :=
  (adapt_level chunk_char_offset chunk_len added_chars_len
     added_chars_end_pos).
Local Abbreviation full_scan :=
  (adapt_level_full_scan chunk_char_offset chunk_len added_chars_len
     added_chars_end_pos).

Lemma shift_offset_cases (b : Z) :
  (added_chars_end_pos <= b - chunk_char_offset /\
   shift b = b - chunk_char_offset + added_chars_len) \/
  (b - chunk_char_offset < added_chars_end_pos /\
   shift b = b - chunk_char_offset).
Proof.
  unfold shift_offset; cbv zeta.
  rewrite Z.geb_leb.
  destruct (Z.leb_spec added_chars_end_pos (b - chunk_char_offset)); auto.
Qed.

Lemma adapt_offset_Keep (b v : Z) :
  step b = Keep v <-> v = shift b /\ 0 <= v <= chunk_len.
Proof.
  unfold adapt_offset; cbv zeta.
  rewrite Z.geb_leb, Z.gtb_ltb.
  destruct (Z.leb_spec 0 (shift b)), (Z.leb_spec (shift b) chunk_len),
    (Z.ltb_spec chunk_len (shift b)); simpl;
    split; intros Hk; try discriminate; try lia;
    try (injection Hk as <-; lia);
    try (destruct Hk as [-> _]; reflexivity).
Qed.

Lemma adapt_offset_Break (b : Z) :
  step b = Break <-> chunk_len < shift b.
Proof.
  unfold adapt_offset; cbv zeta.
  rewrite Z.geb_leb, Z.gtb_ltb.
  destruct (Z.leb_spec 0 (shift b)), (Z.leb_spec (shift b) chunk_len),
    (Z.ltb_spec chunk_len (shift b)); simpl;
    split; intros Hk; try discriminate; try lia; reflexivity.
Qed.

Lemma adapt_offset_Skip (b : Z) :
  step b = Skip <-> shift b < 0 /\ shift b <= chunk_len.
Proof.
  unfold adapt_offset; cbv zeta.
  rewrite Z.geb_leb, Z.gtb_ltb.
  destruct (Z.leb_spec 0 (shift b)), (Z.leb_spec (shift b) chunk_len),
    (Z.ltb_spec chunk_len (shift b)); simpl;
    split; intros Hk; try discriminate; try lia; reflexivity.
Qed.

(** Every offset the inner loop appends is the shifted image of an offset
    of the level and lies in the window. *)
Lemma adapt_level_In (level : list Z) (v : Z) :
  In v (scan level) ->
  (exists b, In b level /\ v = shift b) /\ 0 <= v <= chunk_len.
Proof.
  induction level as [|b rest IH]; simpl; [tauto|].
  destruct (step b) as [w| |] eqn:E; simpl; intros H.
  - apply adapt_offset_Keep in E. destruct H as [<-|H].
    + split; [exists b; tauto | tauto].
    + destruct (IH H) as [[b' [Hb' ->]] Hr]. split; [exists b'; tauto|exact Hr].
  - destruct (IH H) as [[b' [Hb' ->]] Hr]. split; [exists b'; tauto|exact Hr].
  - contradiction.
Qed.

Lemma add_start_boundary_head (b : list Z) :
  exists rest, add_start_boundary b = 0 :: rest.
Proof.
  destruct b as [|b0 b']; simpl; [now exists []|].
  destruct (Z.eqb_spec b0 0) as [->|_]; eauto.
Qed.

Lemma add_start_boundary_In (b : list Z) (v : Z) :
  In v (add_start_boundary b) <-> v = 0 \/ In v b.
Proof.
  destruct b as [|b0 b']; simpl; [intuition congruence|].
  destruct (Z.eqb_spec b0 0) as [->|_]; simpl; intuition congruence.
Qed.

Lemma adapt_semantic_boundaries_length (boundaries : list (list Z)) :
  List.length (adapt_semantic_boundaries boundaries chunk_char_offset
       chunk_len added_chars_len added_chars_end_pos)
  = List.length boundaries.
Proof. unfold adapt_semantic_boundaries. now rewrite !length_map. Qed.

Lemma adapt_semantic_boundaries_nth (boundaries : list (list Z)) (i : nat)
  (out : list Z) :
  nth_error (adapt_semantic_boundaries boundaries chunk_char_offset
       chunk_len added_chars_len added_chars_end_pos) i = Some out ->
  exists level, nth_error boundaries i = Some level /\
                out = add_start_boundary (scan level).
Proof.
  unfold adapt_semantic_boundaries. rewrite map_map, nth_error_map.
  destruct (nth_error boundaries i) as [level|]; simpl; [|discriminate].
  intros [= <-]. now exists level.
Qed.

(** The shift keeps the order of the offsets when characters are added, not
    removed. *)
Lemma shift_offset_mono (b b' : Z) :
  0 <= added_chars_len -> b < b' -> shift b < shift b'.
Proof.
  intros Hlen Hlt.
  destruct (shift_offset_cases b) as [[? ->]|[? ->]],
           (shift_offset_cases b') as [[? ->]|[? ->]]; lia.
Qed.

Lemma full_scan_above (level : list Z) :
  Forall (fun b => chunk_len < shift b) level -> full_scan level = [].
Proof.
  unfold adapt_level_full_scan.
  induction 1 as [|b rest Hb _ IH]; simpl; [reflexivity|].
  destruct (Z.leb_spec (shift b) chunk_len); [lia|].
  now rewrite andb_false_r.
Qed.

(** On an ascending level the early exit loses nothing. *)
Lemma adapt_level_full_scan_eq (level : list Z) :
  0 <= added_chars_len -> StronglySorted Z.lt level ->
  scan level = full_scan level.
Proof.
  intros Hlen Hs. induction Hs as [|b rest Hs IH Hb]; [reflexivity|].
  simpl. unfold adapt_level_full_scan in *. simpl.
  destruct (step b) as [w| |] eqn:E.
  - apply adapt_offset_Keep in E. destruct E as [-> Hr].
    rewrite Z.geb_leb.
    destruct (Z.leb_spec 0 (shift b)), (Z.leb_spec (shift b) chunk_len);
      try lia.
    simpl. now rewrite IH.
  - apply adapt_offset_Skip in E.
    rewrite Z.geb_leb. destruct (Z.leb_spec 0 (shift b)); [lia|]. simpl.
    exact IH.
  - apply adapt_offset_Break in E.
    destruct (Z.leb_spec (shift b) chunk_len); [lia|].
    rewrite andb_false_r. symmetry.
    apply (full_scan_above rest).
    eapply Forall_impl; [|exact Hb].
    intros b' Hlt. simpl in Hlt.
    pose proof (shift_offset_mono b b' Hlen Hlt). lia.
Qed.

Lemma full_scan_In (level : list Z) (v : Z) :
  In v (full_scan level) <->
  (exists b, In b level /\ v = shift b) /\ 0 <= v <= chunk_len.
Proof.
  unfold adapt_level_full_scan.
  rewrite filter_In, in_map_iff, Z.geb_leb, andb_true_iff, !Z.leb_le.
  split.
  - intros [[b [<- Hb]] Hr]. split; [exists b; tauto|exact Hr].
  - intros [[b [Hb ->]] Hr]. split; [exists b; tauto|exact Hr].
Qed.

End AdapterFacts.

Lemma ascending_strongly (level : list Z) :
  ascending level -> StronglySorted Z.lt level.
Proof.
  apply Sorted_StronglySorted. intros x y z. apply Z.lt_trans.
Qed.

(** ** The subset invariant *)

Lemma contains_In (l : list Z) (b : Z) : contains l b = true <-> In b l.
Proof.
  unfold contains. rewrite existsb_exists. split.
  - intros [x [Hx E]]. apply Z.eqb_eq in E. now subst.
  - intros Hb. exists b. split; [exact Hb|apply Z.eqb_refl].
Qed.

Lemma subset_invariant_nil : subset_invariant [].
Proof. intros [|i] j li lj _ Hi; discriminate. Qed.

Lemma subset_invariant_cons (l : list Z) (finer : list (list Z)) :
  subset_invariant (l :: finer) <->
  Forall (fun lj => incl l lj) finer /\ subset_invariant finer.
Proof.
  split.
  - intros H. split.
    + apply Forall_forall. intros lj Hlj b Hb.
      destruct (In_nth_error _ _ Hlj) as [j Hj].
      apply (H 0%nat (S j) l lj); [lia|reflexivity|exact Hj|exact Hb].
    + intros i j li lj Hlt Hi Hj.
      apply (H (S i) (S j) li lj); [lia|exact Hi|exact Hj].
  - intros [Hl Hf] i j li lj Hlt Hi Hj.
    destruct j as [|j]; [lia|]. simpl in Hj.
    destruct i as [|i]; simpl in Hi.
    + injection Hi as <-. rewrite Forall_forall in Hl.
      apply Hl. eapply nth_error_In; exact Hj.
    + apply (Hf i j li lj); [lia|exact Hi|exact Hj].
Qed.

Lemma subset_invariantb_spec (levels : list (list Z)) :
  subset_invariantb levels = true <-> subset_invariant levels.
Proof.
  induction levels as [|l finer IH]; simpl.
  - split; [intros _; apply subset_invariant_nil|reflexivity].
  - rewrite subset_invariant_cons, andb_true_iff, IH, forallb_forall,
      Forall_forall.
    apply and_iff_compat_r.
    split; intros H lj Hlj.
    + intros b Hb. apply contains_In.
      specialize (H lj Hlj). rewrite forallb_forall in H. now apply H.
    + apply forallb_forall. intros b Hb. apply contains_In.
      now apply (H lj Hlj).
Qed.

(** ** Claims on the Boundary Adapter *)

(** C2 (zero-anchoring).  Whatever the hierarchy and the window, every level
    that [adapt_semantic_boundaries] returns is non-empty and starts with 0. *)
Theorem adapt_levels_start_at_zero
  (boundaries : list (list Z))
  (chunk_char_offset chunk_len added_chars_len added_chars_end_pos : Z) :
  Forall (fun level => level <> [] /\ hd_error level = Some 0)
    (adapt_semantic_boundaries boundaries chunk_char_offset
       chunk_len added_chars_len added_chars_end_pos).
Proof.
  unfold adapt_semantic_boundaries.
  apply Forall_map, Forall_forall. intros level _.
  destruct (add_start_boundary_head level) as [rest ->].
  split; [discriminate|reflexivity].
Qed.

(** C3 (range bound).  For a window with [chunk_len >= 0], every offset of
    every level that [adapt_semantic_boundaries] returns lies in
    [0, chunk_len]. *)
Theorem adapt_offsets_in_window
  (boundaries : list (list Z))
  (chunk_char_offset chunk_len added_chars_len added_chars_end_pos : Z) :
  0 <= chunk_len ->
  Forall (Forall (fun v => 0 <= v <= chunk_len))
    (adapt_semantic_boundaries boundaries chunk_char_offset
       chunk_len added_chars_len added_chars_end_pos).
Proof.
  intros Hlen. unfold adapt_semantic_boundaries. rewrite map_map.
  apply Forall_map, Forall_forall. intros level _.
  apply Forall_forall. intros v Hv.
  apply add_start_boundary_In in Hv. destruct Hv as [->|Hv]; [lia|].
  now apply adapt_level_In in Hv.
Qed.

Lemma adapt_offsets_in_window_witness :
  0 <= 7 /\
  Forall (Forall (fun v => 0 <= v <= 7))
    (adapt_semantic_boundaries [[0; 10]; [0; 3; 5; 10]] 3 7 0 0).
Proof.
  split; [lia|]. apply adapt_offsets_in_window. lia.
Defined.

(** C4 (early exit against full scan).  On a level in strictly ascending
    order, with [added_chars_len >= 0], the loop with its [break] keeps
    exactly the offsets that a scan of the whole level keeps, and every
    offset after one that maps above [chunk_len] maps above [chunk_len]
    too. *)
Theorem adapt_early_exit_is_full_scan
  (chunk_char_offset chunk_len added_chars_len added_chars_end_pos : Z)
  (level : list Z) :
  ascending level ->
  0 <= added_chars_len ->
  adapt_level chunk_char_offset chunk_len added_chars_len added_chars_end_pos
    level
  = adapt_level_full_scan chunk_char_offset chunk_len added_chars_len
      added_chars_end_pos level
  /\
  forall pre b post,
    level = (pre ++ b :: post)%list ->
    adapt_offset chunk_char_offset chunk_len added_chars_len
      added_chars_end_pos b = Break ->
    Forall (fun b' =>
              chunk_len < shift_offset chunk_char_offset added_chars_len
                            added_chars_end_pos b') post.
Proof.
  intros Hs Hlen. apply ascending_strongly in Hs. split.
  - now apply adapt_level_full_scan_eq.
  - intros pre b post -> Hb. apply adapt_offset_Break in Hb.
    induction pre as [|p pre IH]; simpl in Hs.
    + apply StronglySorted_inv in Hs. destruct Hs as [_ Hall].
      eapply Forall_impl; [|exact Hall]. intros b' Hlt. simpl in Hlt.
      pose proof (shift_offset_mono chunk_char_offset added_chars_len
                    added_chars_end_pos b b' Hlen Hlt). lia.
    + apply StronglySorted_inv in Hs. now apply IH.
Qed.

Lemma adapt_early_exit_is_full_scan_witness :
  adapt_level 3 7 2 0 [0; 3; 5; 10; 12] = [2; 4]
  /\ adapt_level_full_scan 3 7 2 0 [0; 3; 5; 10; 12] = [2; 4]
  /\ Forall (fun b' => 7 < shift_offset 3 2 0 b') [12].
Proof.
  assert (Hs : ascending [0; 3; 5; 10; 12])
    by (unfold ascending; repeat constructor).
  assert (Hlen : 0 <= 2) by lia.
  destruct (adapt_early_exit_is_full_scan 3 7 2 0 _ Hs Hlen) as [Heq Hskip].
  split; [reflexivity|]. split.
  - rewrite <- Heq. reflexivity.
  - apply (Hskip [0; 3; 5] 10 [12]); reflexivity.
Defined.

(** The inner loop reaches the offsets that follow [pre] when no offset of
    [pre] makes it [break]. *)
Lemma adapt_level_app
  (chunk_char_offset chunk_len added_chars_len added_chars_end_pos : Z)
  (pre rest : list Z) :
  Forall (fun x => adapt_offset chunk_char_offset chunk_len added_chars_len
                     added_chars_end_pos x <> Break) pre ->
  adapt_level chunk_char_offset chunk_len added_chars_len added_chars_end_pos
    (pre ++ rest)
  = (adapt_level chunk_char_offset chunk_len added_chars_len
       added_chars_end_pos pre
     ++ adapt_level chunk_char_offset chunk_len added_chars_len
          added_chars_end_pos rest)%list.
Proof.
  induction 1 as [|x pre Hx _ IH]; simpl; [reflexivity|].
  destruct (adapt_offset _ _ _ _ x); simpl; congruence.
Qed.

(** The insertion shift for an [added_chars_len] of either sign.  With
    [added_chars_end_pos = 0], an offset [b] that the inner loop reaches has
    its local offset [b - chunk_char_offset] increased by [added_chars_len]
    when that local offset is non-negative and left as it is otherwise,
    before the range check; [b] is kept exactly when
    [b - chunk_char_offset >= 0] and
    [0 <= b - chunk_char_offset + added_chars_len <= chunk_len], and the kept
    value is [b - chunk_char_offset + added_chars_len]. *)
Theorem adapt_insertion_shift
  (chunk_char_offset chunk_len added_chars_len : Z)
  (pre : list Z) (b : Z) (post : list Z) :
  Forall (fun x => adapt_offset chunk_char_offset chunk_len added_chars_len 0
                     x <> Break) pre ->
  let local := b - chunk_char_offset in
  let kept := adapt_level chunk_char_offset chunk_len added_chars_len 0 in
  shift_offset chunk_char_offset added_chars_len 0 b
    = (if 0 <=? local then local + added_chars_len else local)
  /\ (forall v,
       adapt_offset chunk_char_offset chunk_len added_chars_len 0 b = Keep v
       <-> 0 <= local /\ 0 <= local + added_chars_len <= chunk_len
           /\ v = local + added_chars_len)
  /\ kept (pre ++ b :: post)%list
     = (kept pre
        ++ match adapt_offset chunk_char_offset chunk_len added_chars_len 0 b
           with
           | Keep v => v :: kept post
           | Skip => kept post
           | Break => []
           end)%list.
Proof.
  intros Hpre local kept.
  assert (Hshift : shift_offset chunk_char_offset added_chars_len 0 b
                   = if 0 <=? local then local + added_chars_len else local).
  { unfold shift_offset; cbv zeta. now rewrite Z.geb_leb. }
  split; [exact Hshift|]. split.
  - intros v. rewrite adapt_offset_Keep, Hshift.
    destruct (Z.leb_spec 0 local); lia.
  - unfold kept. rewrite adapt_level_app by exact Hpre. reflexivity.
Qed.

Lemma adapt_insertion_shift_witness :
  shift_offset 0 5 0 3 = 8
  /\ adapt_offset 0 20 5 0 3 = Keep 8
  /\ adapt_level 0 20 5 0 [0; 3; 10] = [5; 8; 15].
Proof.
  assert (Hpre : Forall (fun x => adapt_offset 0 20 5 0 x <> Break) [0])
    by (repeat constructor; discriminate).
  destruct (adapt_insertion_shift 0 20 5 [0] 3 [10] Hpre) as [Hs [Hk Hl]].
  split; [exact Hs|]. split.
  - apply Hk. lia.
  - exact Hl.
Defined.

(** C10 (the Adapter preserves the subset invariant).  For a hierarchy whose
    levels are in strictly ascending order and satisfy the subset invariant,
    and a window with [chunk_len >= 0] and [added_chars_len >= 0], the
    adapted hierarchy has as many levels and satisfies the subset
    invariant. *)
Theorem adapt_preserves_subset_invariant
  (chunk_char_offset chunk_len added_chars_len added_chars_end_pos : Z)
  (boundaries : list (list Z)) :
  Forall ascending boundaries ->
  subset_invariant boundaries ->
  0 <= chunk_len ->
  0 <= added_chars_len ->
  List.length (adapt_semantic_boundaries boundaries chunk_char_offset
       chunk_len added_chars_len added_chars_end_pos)
  = List.length boundaries
  /\ subset_invariant
       (adapt_semantic_boundaries boundaries chunk_char_offset
       chunk_len added_chars_len added_chars_end_pos).
Proof.
  intros Hasc Hsub _ Hlen. split; [apply adapt_semantic_boundaries_length|].
  intros i j oi oj Hlt Hi Hj b Hb.
  apply adapt_semantic_boundaries_nth in Hi. destruct Hi as [li [Hi ->]].
  apply adapt_semantic_boundaries_nth in Hj. destruct Hj as [lj [Hj ->]].
  apply add_start_boundary_In. apply add_start_boundary_In in Hb.
  destruct Hb as [->|Hb]; [now left|right].
  rewrite Forall_forall in Hasc.
  rewrite adapt_level_full_scan_eq
    by (try apply ascending_strongly, Hasc; eauto using nth_error_In).
  apply adapt_level_In in Hb. destruct Hb as [[x [Hx ->]] Hr].
  apply full_scan_In. split; [|exact Hr].
  exists x. split; [|reflexivity].
  now apply (Hsub i j li lj).
Qed.

Lemma adapt_preserves_subset_invariant_witness :
  List.length (adapt_semantic_boundaries [[0; 10]; [0; 3; 5; 10]] 3 7 0 0)
  = 2%nat
  /\ subset_invariant
       (adapt_semantic_boundaries [[0; 10]; [0; 3; 5; 10]] 3 7 0 0).
Proof.
  apply (adapt_preserves_subset_invariant 3 7 0 0 [[0; 10]; [0; 3; 5; 10]]).
  - unfold ascending; repeat constructor.
  - apply subset_invariantb_spec. reflexivity.
  - lia.
  - lia.
Defined.

(** ** The Boundary Offset Splitter *)

Lemma split_offsets_loop (delimiter_len : Z) (pieces : list string)
  (start_char : Z) (start_chars : list Z) :
  snd (fold_left (split_offsets_step delimiter_len) pieces
         (start_char, start_chars))
  = (start_chars ++ piece_offsets delimiter_len start_char pieces)%list.
Proof.
  revert start_char start_chars.
  induction pieces as [|p rest IH]; intros start_char start_chars; simpl.
  - now rewrite app_nil_r.
  - rewrite IH, <- app_assoc. reflexivity.
Qed.

Lemma piece_offsets_length (delimiter_len start_char : Z)
  (pieces : list string) :
  List.length (piece_offsets delimiter_len start_char pieces)
  = List.length pieces.
Proof.
  revert start_char. induction pieces as [|p rest IH]; intros; simpl;
    [reflexivity|now rewrite IH].
Qed.

Lemma piece_offsets_next (delimiter_len : Z) (pieces : list string) :
  forall (start_char : Z) (k : nat) (o : Z) (p : string),
    nth_error (piece_offsets delimiter_len start_char pieces) k = Some o ->
    nth_error pieces k = Some p ->
    (S k < List.length pieces)%nat ->
    nth_error (piece_offsets delimiter_len start_char pieces) (S k)
    = Some (o + (Z.of_nat (String.length p) + delimiter_len)).
Proof.
  induction pieces as [|q rest IH]; intros start_char k o p Ho Hp Hk.
  - simpl in Hk. lia.
  - destruct k as [|k].
    + simpl in Ho, Hp. injection Ho as <-. injection Hp as <-.
      destruct rest as [|q' rest']; [simpl in Hk; lia|reflexivity].
    + simpl in Ho, Hp, Hk. change (nth_error (piece_offsets delimiter_len
        start_char (q :: rest)) (S (S k))) with (nth_error (piece_offsets
        delimiter_len (start_char + (Z.of_nat (String.length q)
        + delimiter_len)) rest) (S k)).
      apply IH; [exact Ho|exact Hp|lia].
Qed.

Lemma string_app_nil_r (s : string) : (s ++ "")%string = s.
Proof. induction s as [|c s IH]; simpl; [reflexivity|now rewrite IH]. Qed.

Lemma string_app_assoc (s1 s2 s3 : string) :
  ((s1 ++ s2) ++ s3)%string = (s1 ++ (s2 ++ s3))%string.
Proof. induction s1 as [|c s1 IH]; simpl; [reflexivity|now rewrite IH]. Qed.

Lemma string_length_app (s1 s2 : string) :
  String.length (s1 ++ s2) = (String.length s1 + String.length s2)%nat.
Proof. induction s1 as [|c s1 IH]; simpl; [reflexivity|now rewrite IH]. Qed.

Module ReFacts.

(** [re.split] returns at least one piece. *)
Lemma split_from_not_nil (alts : list string) (s : string) :
  forall skip cur, Re.split_from alts skip cur s <> [].
Proof.
  induction s as [|c s IH]; intros skip cur; simpl.
  - destruct skip; [|discriminate].
    destruct (Re.match_here alts false "") as [[|k]|]; discriminate.
  - destruct skip; [|apply IH].
    destruct (Re.match_here alts false (String c s)) as [[|k]|];
      try discriminate. apply IH.
Qed.

Lemma match_here_no_prefix (alts : list string) (adv : bool) (s : string) :
  (forall d, In d alts -> String.prefix d s = false) ->
  Re.match_here alts adv s = None.
Proof.
  induction alts as [|d alts IH]; intros H; simpl; [reflexivity|].
  rewrite (H d) by now left. simpl. apply IH. intros d' Hd'. apply H.
  now right.
Qed.

(** A text in which no alternative occurs is its own single piece. *)
Lemma split_from_no_occurrence (alts : list string) (s : string) :
  (forall d, In d alts -> occurs d s = false) ->
  forall cur, Re.split_from alts 0 cur s = [(cur ++ s)%string].
Proof.
  induction s as [|c s IH]; intros H cur; simpl.
  - rewrite match_here_no_prefix.
    + now rewrite string_app_nil_r.
    + intros d Hd. specialize (H d Hd). simpl in H.
      now apply orb_false_elim in H.
  - rewrite match_here_no_prefix.
    + rewrite IH.
      * now rewrite string_app_assoc.
      * intros d Hd. specialize (H d Hd). simpl in H.
        now apply orb_false_elim in H.
    + intros d Hd. specialize (H d Hd). simpl in H.
      now apply orb_false_elim in H.
Qed.

Lemma prefix_split (d s : string) :
  String.prefix d s = true -> exists rest, s = (d ++ rest)%string.
Proof.
  revert s. induction d as [|c d IH]; intros s H.
  - now exists s.
  - destruct s as [|c' s]; simpl in H; [discriminate|].
    destruct (Ascii.ascii_dec c c') as [->|]; [|discriminate].
    destruct (IH s H) as [rest ->]. now exists rest.
Qed.

Lemma prefix_app (d rest : string) : String.prefix d (d ++ rest) = true.
Proof.
  induction d as [|c d IH]; simpl; [now destruct rest|].
  destruct (Ascii.ascii_dec c c); [exact IH|congruence].
Qed.

Lemma match_here_Some (alts : list string) (adv : bool) (s : string) (m : nat) :
  Re.match_here alts adv s = Some m ->
  exists d, In d alts /\ String.prefix d s = true /\ String.length d = m.
Proof.
  induction alts as [|d alts IH]; simpl; [discriminate|].
  destruct (String.prefix d s && negb (adv && (String.length d =? 0)%nat))
    eqn:E.
  - intros [= <-]. apply andb_true_iff in E. exists d. tauto.
  - intros H. destruct (IH H) as [d' [? [? ?]]]. exists d'. tauto.
Qed.

Lemma match_here_None (alts : list string) (s : string) :
  Re.match_here alts false s = None ->
  existsb (fun d => String.prefix d s) alts = false.
Proof.
  induction alts as [|d alts IH]; simpl; [reflexivity|].
  rewrite andb_true_r. destruct (String.prefix d s); [discriminate|].
  exact IH.
Qed.

Lemma split_from_skip (alts : list string) (d : string) :
  forall cur rest,
    Re.split_from alts (String.length d) cur (d ++ rest)
    = Re.split_from alts 0 cur rest.
Proof.
  induction d as [|c d IH]; intros cur rest; [reflexivity|].
  simpl. apply IH.
Qed.

Lemma no_match_before_snoc (alts : list string) (p : string) (c : ascii)
  (tail : string) :
  no_match_before alts (p ++ String c "") tail
  = no_match_before alts p (String c tail)
    && negb (existsb (fun d => String.prefix d (String c tail)) alts).
Proof.
  induction p as [|a p IH]; simpl.
  - now rewrite andb_true_r.
  - rewrite IH, string_app_assoc. simpl. now rewrite andb_assoc.
Qed.

Lemma no_match_before_occurs (alts : list string) (s : string) :
  (forall d, In d alts -> d <> "") ->
  no_match_before alts s "" = true ->
  forall d, In d alts -> occurs d s = false.
Proof.
  intros Hne. induction s as [|c s IH]; intros H d Hd.
  - simpl. destruct d; [now elim (Hne "" Hd)|reflexivity].
  - simpl in H. apply andb_true_iff in H. destruct H as [H1 H2].
    change (occurs d (String c s))
      with (String.prefix d (String c s) || occurs d s).
    rewrite (IH H2 d Hd), orb_false_r.
    apply negb_true_iff in H1.
    rewrite string_app_nil_r in H1.
    destruct (String.prefix d (String c s)) eqn:E; [|reflexivity].
    rewrite <- H1. symmetry. apply existsb_exists. now exists d.
Qed.

Lemma split_from_leftmost (alts : list string) :
  (forall d, In d alts -> d <> "") ->
  forall n s cur,
    (String.length s <= n)%nat ->
    no_match_before alts cur s = true ->
    leftmost_split alts (cur ++ s) (Re.split_from alts 0 cur s).
Proof.
  intros Hne. induction n as [|n IH]; intros s cur Hn Hcur.
  - destruct s; [|simpl in Hn; lia]. simpl.
    destruct (Re.match_here alts false "") as [m|] eqn:E.
    + apply match_here_Some in E. destruct E as [d [Hd [Hp _]]].
      destruct d; [now elim (Hne "" Hd)|discriminate].
    + rewrite string_app_nil_r. constructor.
      now apply no_match_before_occurs.
  - destruct s as [|c s].
    { apply IH; [simpl; lia|exact Hcur]. }
    cbn [Re.split_from].
    destruct (Re.match_here alts false (String c s)) as [m|] eqn:E.
    + apply match_here_Some in E. destruct E as [d [Hd [Hp Hm]]].
      destruct (prefix_split _ _ Hp) as [rest Hs].
      destruct d as [|c' d]; [now elim (Hne "" Hd)|].
      simpl in Hm. subst m. simpl in Hs. injection Hs as <- ->.
      rewrite split_from_skip.
      apply (leftmost_split_match alts cur (String c d) rest).
      * exact Hd.
      * exact Hcur.
      * apply (IH rest "").
        -- simpl in Hn. rewrite string_length_app in Hn. lia.
        -- reflexivity.
    + apply match_here_None in E.
      replace (cur ++ String c s)%string
        with ((cur ++ String c "") ++ s)%string
        by now rewrite string_app_assoc.
      apply IH; [simpl in Hn; lia|].
      rewrite no_match_before_snoc, Hcur, E. reflexivity.
Qed.

(** [re.split] on non-empty alternatives is the leftmost split. *)
Lemma split_leftmost (alts : list string) (text : string) :
  (forall d, In d alts -> d <> "") ->
  leftmost_split alts text (Re.split alts text).
Proof.
  intros Hne.
  apply (split_from_leftmost alts Hne (String.length text) text "");
    [lia|reflexivity].
Qed.

End ReFacts.

(** In a leftmost split on delimiters of one length, the offset of a piece
    is the length of the text before it. *)
Lemma leftmost_split_piece_starts (alts : list string) (delimiter_len : nat)
  (text : string) (pieces : list string) :
  (forall d, In d alts -> String.length d = delimiter_len) ->
  leftmost_split alts text pieces ->
  forall start_char k o p,
    nth_error (piece_offsets (Z.of_nat delimiter_len) start_char pieces) k
    = Some o ->
    nth_error pieces k = Some p ->
    exists pre post,
      text = (pre ++ p ++ post)%string
      /\ o = start_char + Z.of_nat (String.length pre).
Proof.
  intros Hlen Hsplit.
  induction Hsplit as [s Hs|p0 d rest pieces Hd Hno Hsplit IH];
    intros start_char k o p Ho Hp.
  - destruct k as [|k]; [|destruct k; discriminate].
    simpl in Ho, Hp. injection Ho as <-. injection Hp as <-.
    exists "", "". simpl. rewrite string_app_nil_r. split; [reflexivity|lia].
  - destruct k as [|k]; simpl in Ho, Hp.
    + injection Ho as <-. injection Hp as <-.
      exists "", (d ++ rest)%string. simpl. split; [reflexivity|lia].
    + destruct (IH _ _ _ _ Ho Hp) as [pre [post [-> ->]]].
      exists (p0 ++ d ++ pre)%string, post. split.
      * now rewrite !string_app_assoc.
      * rewrite !string_length_app, (Hlen d Hd). lia.
Qed.

(** [get_split_offsets] on delimiters of one length. *)
Lemma get_split_offsets_uniform (text : string) (delimiters : list string)
  (d0 : string) :
  In d0 delimiters ->
  (forall d, In d delimiters -> String.length d = String.length d0) ->
  get_split_offsets text delimiters
  = Ok (piece_offsets (Z.of_nat (String.length d0)) 0
          (Re.split delimiters text)).
Proof.
  intros Hin Hlen. unfold get_split_offsets.
  destruct delimiters as [|d rest]; [contradiction|].
  assert (Hd : String.length d = String.length d0) by (apply Hlen; now left).
  rewrite Hd.
  assert (Hall : forallb (fun d' => (String.length d' =? String.length d0)%nat)
                   rest = true).
  { apply forallb_forall. intros d' Hd'. apply Nat.eqb_eq, Hlen. now right. }
  rewrite Hall, split_offsets_loop. reflexivity.
Qed.

(** C6 (Splitter precondition).  A non-empty delimiter list with two strings
    of different lengths makes [get_split_offsets] raise [AssertionError]
    (InvalidArgument in the spec) and return no offsets, whatever the text;
    so do the delimiters ["ab", "c"]. *)
Theorem get_split_offsets_mixed_lengths
  (text : string) (delimiters : list string) :
  delimiters <> [] ->
  (exists d1 d2, In d1 delimiters /\ In d2 delimiters /\
                 String.length d1 <> String.length d2) ->
  get_split_offsets text delimiters = Raise AssertionError
  /\ get_split_offsets text ["ab"; "c"] = Raise AssertionError.
Proof.
  intros Hne [d1 [d2 [H1 [H2 Hdiff]]]]. split; [|reflexivity].
  unfold get_split_offsets.
  destruct delimiters as [|d0 rest]; [contradiction|].
  destruct (forallb _ rest) eqn:Hall; [|reflexivity].
  exfalso. rewrite forallb_forall in Hall.
  assert (Hlen : forall d, In d (d0 :: rest) ->
                           String.length d = String.length d0).
  { intros d [<-|Hd]; [reflexivity|]. now apply Nat.eqb_eq, Hall. }
  apply Hdiff. now rewrite (Hlen d1 H1), (Hlen d2 H2).
Qed.

Lemma get_split_offsets_mixed_lengths_witness :
  get_split_offsets "a. b" [". "; "?"] = Raise AssertionError
  /\ get_split_offsets "a. b" ["ab"; "c"] = Raise AssertionError.
Proof.
  apply get_split_offsets_mixed_lengths.
  - discriminate.
  - exists ". ", "?". simpl. split; [tauto|]. split; [tauto|]. lia.
Defined.

(** C8 (Splitter offsets).  For a non-empty list of delimiters of one length
    [delimiter_len], [get_split_offsets] returns one offset for each piece of
    [re.split] on the alternation of the delimiters; the first offset is 0
    and every later offset is the one before it plus the length of the piece
    before it plus [delimiter_len].  When the delimiters are not empty
    strings, the pieces are those of the leftmost, non-overlapping split and
    each offset is the position at which its piece begins in the text.  A
    text in which no delimiter occurs gives the single offset 0, and
    "a. b? c! " split on ". ", "? ", "! " gives 0, 3, 6, 9. *)
Theorem get_split_offsets_piece_starts
  (text : string) (delimiters : list string) :
  delimiters <> [] ->
  (forall d1 d2, In d1 delimiters -> In d2 delimiters ->
                 String.length d1 = String.length d2) ->
  exists (delimiter_len : nat) (offsets : list Z),
    (forall d, In d delimiters -> String.length d = delimiter_len)
    /\ get_split_offsets text delimiters = Ok offsets
    /\ List.length offsets = List.length (Re.split delimiters text)
    /\ nth_error offsets 0 = Some 0
    /\ (forall k o p,
          nth_error offsets k = Some o ->
          nth_error (Re.split delimiters text) k = Some p ->
          (S k < List.length (Re.split delimiters text))%nat ->
          nth_error offsets (S k)
          = Some (o + (Z.of_nat (String.length p) + Z.of_nat delimiter_len)))
    /\ ((forall d, In d delimiters -> d <> "") ->
        leftmost_split delimiters text (Re.split delimiters text)
        /\ forall k o p,
             nth_error offsets k = Some o ->
             nth_error (Re.split delimiters text) k = Some p ->
             exists pre post,
               text = (pre ++ p ++ post)%string
               /\ o = Z.of_nat (String.length pre))
    /\ ((forall d, In d delimiters -> occurs d text = false) ->
        offsets = [0])
    /\ get_split_offsets "a. b? c! " [". "; "? "; "! "] = Ok [0; 3; 6; 9].
Proof.
  intros Hne Hlen.
  destruct delimiters as [|d0 rest] eqn:E; [contradiction|]. rewrite <- E in *.
  assert (Hin : In d0 delimiters) by (rewrite E; now left).
  exists (String.length d0),
    (piece_offsets (Z.of_nat (String.length d0)) 0 (Re.split delimiters text)).
  split; [intros d Hd; now apply Hlen|].
  split; [apply get_split_offsets_uniform;
          [exact Hin|intros d Hd; now apply Hlen]|].
  split; [apply piece_offsets_length|].
  split.
  { unfold Re.split.
    pose proof (ReFacts.split_from_not_nil delimiters text 0 "") as Hnn.
    destruct (Re.split_from delimiters 0 "" text); [contradiction|reflexivity]. }
  split; [intros k o p; apply piece_offsets_next|].
  split.
  { intros Hnonempty.
    pose proof (ReFacts.split_leftmost delimiters text Hnonempty) as Hsplit.
    split; [exact Hsplit|]. intros k o p Ho Hp.
    destruct (leftmost_split_piece_starts delimiters (String.length d0) text
                _ (fun d Hd => Hlen d d0 Hd Hin) Hsplit 0 k o p Ho Hp)
      as [pre [post [Ht Hpre]]].
    exists pre, post. split; [exact Ht|lia]. }
  split; [|reflexivity].
  intros Hno. unfold Re.split.
  now rewrite ReFacts.split_from_no_occurrence.
Qed.

Lemma get_split_offsets_piece_starts_witness :
  exists (delimiter_len : nat) (offsets : list Z),
    (forall d, In d [": "; "; "; ", "] -> String.length d = delimiter_len)
    /\ get_split_offsets "a, b; c" [": "; "; "; ", "] = Ok offsets
    /\ List.length offsets
       = List.length (Re.split [": "; "; "; ", "] "a, b; c")
    /\ nth_error offsets 0 = Some 0.
Proof.
  destruct (get_split_offsets_piece_starts "a, b; c" [": "; "; "; ", "])
    as [delimiter_len [offsets [H1 [H2 [H3 [H4 _]]]]]].
  - discriminate.
  - intros d1 d2 H1 H2. simpl in H1, H2.
    repeat match goal with
           | H : _ \/ _ |- _ => destruct H as [<-|H]
           | H : False |- _ => contradiction
           end; reflexivity.
  - exists delimiter_len, offsets. auto.
Defined.

(** ** The Boundary Extractor: the first loop *)

Lemma get_split_offsets_Ok (text : string) (delimiters : list string) :
  uniform_delimiters delimiters ->
  exists offsets, get_split_offsets text delimiters = Ok offsets.
Proof.
  intros [Hne Hlen]. destruct delimiters as [|d0 rest] eqn:E; [contradiction|].
  rewrite <- E in *. eexists.
  apply (get_split_offsets_uniform text delimiters d0).
  - rewrite E. now left.
  - intros d Hd. apply Hlen; [exact Hd|rewrite E; now left].
Qed.

Lemma paragraph_offsets_Ok (text : string) :
  get_split_offsets text paragraph_boundary_chars
  = Ok (piece_offsets 2 0 (Re.split paragraph_boundary_chars text)).
Proof.
  unfold get_split_offsets, paragraph_boundary_chars. simpl forallb. cbv iota.
  now rewrite split_offsets_loop.
Qed.

Lemma subpart_offsets_Ok (text : string) :
  get_split_offsets text subpart_boundary_chars
  = Ok (piece_offsets 2 0 (Re.split subpart_boundary_chars text)).
Proof.
  unfold get_split_offsets, subpart_boundary_chars. simpl forallb. cbv iota.
  now rewrite split_offsets_loop.
Qed.

Lemma known_chunk_types_dec (chunk_type : string) :
  {In chunk_type known_chunk_types} + {~ In chunk_type known_chunk_types}.
Proof. apply in_dec, string_dec. Defined.

(** One iteration of the first loop raises exactly on an unknown name. *)
Lemma chunk_level_unknown (text : string) (k : nat) (chunk_type : string)
  (h : store) :
  ~ In chunk_type known_chunk_types ->
  chunk_level text k chunk_type h
  = Raise (ValueError ("Unknown chunk type: " ++ chunk_type)).
Proof.
  intros Hn. unfold chunk_level.
  repeat match goal with
         | |- context [String.eqb chunk_type ?s] =>
             destruct (String.eqb_spec chunk_type s) as [->|_];
             [exfalso; apply Hn; simpl; tauto|]
         end.
  reflexivity.
Qed.

Lemma chunk_level_known (text : string) (k : nat) (chunk_type : string)
  (h : store) :
  In chunk_type known_chunk_types ->
  exists r h', chunk_level text k chunk_type h = Ok (r, h').
Proof.
  intros Hk. unfold chunk_level. simpl in Hk.
  destruct Hk as [<-|[<-|[<-|[<-|[]]]]]; simpl;
    rewrite ?paragraph_offsets_Ok, ?subpart_offsets_Ok; simpl; eauto.
Qed.

Lemma collect_levels_unknown (text : string) (chunk_types : list string) :
  (exists name, In name chunk_types /\ ~ In name known_chunk_types) ->
  forall k h,
  exists name,
    In name chunk_types /\ ~ In name known_chunk_types /\
    collect_levels text chunk_types k h
    = Raise (ValueError ("Unknown chunk type: " ++ name)).
Proof.
  induction chunk_types as [|ct rest IH]; intros [name [Hin Hn]] k h.
  - contradiction.
  - simpl. destruct (known_chunk_types_dec ct) as [Hk|Hk].
    + destruct (chunk_level_known text k ct h Hk) as [r [h' ->]]. simpl.
      destruct Hin as [->|Hin]; [contradiction|].
      destruct (IH (ex_intro _ name (conj Hin Hn)) (S k) h')
        as [name' [Hin' [Hn' ->]]].
      exists name'. split; [now right|]. split; [exact Hn'|reflexivity].
    + exists ct. rewrite chunk_level_unknown by exact Hk.
      split; [now left|]. split; [exact Hk|reflexivity].
Qed.

(** What the Extractor computes before its two loops. *)
Lemma extractor_prologue (doc : document)
  (chunk_types sentence_boundary_chars token_boundary_chars : list string) :
  delimiters_fit doc sentence_boundary_chars token_boundary_chars ->
  exists sentence_start token_start,
    get_semantic_bounderies doc chunk_types sentence_boundary_chars
      token_boundary_chars
    = ('(boundaries, h) <-
         collect_levels (document_text doc) chunk_types 0
           (init_store sentence_start token_start) ;;
       Ok (map (enforce_subsets boundaries h) boundaries)).
Proof.
  intros Hfit. unfold get_semantic_bounderies.
  destruct doc as [text|d]; simpl in *.
  - destruct Hfit as [Hs Ht].
    destruct (get_split_offsets_Ok text _ Hs) as [ss ->].
    destruct (get_split_offsets_Ok text _ Ht) as [ts ->].
    simpl. now exists ss, ts.
  - eexists _, _. reflexivity.
Qed.

(** C7 (unknown granularity).  When the requested list holds a name outside
    "paragraphs", "sentences", "subparts", "tokens", the Extractor returns no
    hierarchy; it raises [ValueError] (UnknownGranularity in the spec) for
    such a name whenever its delimiter arguments pass the check of the
    Splitter, which the default ones do and which an annotated document does
    not need.  Requesting ["paragraphs", "lines"] raises [ValueError] for
    "lines". *)
Theorem unknown_chunk_type_raises (doc : document)
  (chunk_types sentence_boundary_chars token_boundary_chars : list string) :
  (exists name, In name chunk_types /\ ~ In name known_chunk_types) ->
  (forall levels,
     get_semantic_bounderies doc chunk_types sentence_boundary_chars
       token_boundary_chars <> Ok levels)
  /\ (delimiters_fit doc sentence_boundary_chars token_boundary_chars ->
      exists name,
        In name chunk_types /\ ~ In name known_chunk_types /\
        get_semantic_bounderies doc chunk_types sentence_boundary_chars
          token_boundary_chars
        = Raise (ValueError ("Unknown chunk type: " ++ name)))
  /\ get_semantic_bounderies doc ["paragraphs"; "lines"]
       default_sentence_boundary_chars default_token_boundary_chars
     = Raise (ValueError "Unknown chunk type: lines").
Proof.
  intros Hunknown.
  assert (Hfit : forall types sbc tbc,
             (exists name, In name types /\ ~ In name known_chunk_types) ->
             delimiters_fit doc sbc tbc ->
             exists name,
               In name types /\ ~ In name known_chunk_types /\
               get_semantic_bounderies doc types sbc tbc
               = Raise (ValueError ("Unknown chunk type: " ++ name))).
  { intros types sbc tbc Hu Hf.
    destruct (extractor_prologue doc types sbc tbc Hf) as [ss [ts ->]].
    destruct (collect_levels_unknown (document_text doc) types Hu 0%nat
                (init_store ss ts)) as [name [Hin [Hn ->]]].
    exists name. split; [exact Hin|]. split; [exact Hn|reflexivity]. }
  split; [|split].
  - intros levels. unfold get_semantic_bounderies.
    destruct doc as [text|d].
    + destruct (get_split_offsets text sentence_boundary_chars) as [ss|e];
        [|discriminate].
      destruct (get_split_offsets text token_boundary_chars) as [ts|e];
        [|discriminate].
      simpl.
      destruct (collect_levels_unknown text chunk_types Hunknown 0%nat
                  (init_store ss ts)) as [name [_ [_ ->]]].
      discriminate.
    + simpl.
      destruct (collect_levels_unknown (Doc.text d) chunk_types Hunknown 0%nat
                  (init_store (map start_char (Doc.sents d))
                     (map idx (Doc.tokens d)))) as [name [_ [_ ->]]].
      discriminate.
  - now apply Hfit.
  - destruct (Hfit ["paragraphs"; "lines"] default_sentence_boundary_chars
                default_token_boundary_chars) as [name [Hin [Hn ->]]].
    + exists "lines". split; [simpl; tauto|].
      unfold known_chunk_types. simpl. intuition discriminate.
    + destruct doc; simpl; [|exact I].
      split; (split; [discriminate|]);
        intros d1 d2 H1 H2; simpl in H1, H2;
        repeat match goal with
               | H : _ \/ _ |- _ => destruct H as [<-|H]
               | H : False |- _ => contradiction
               end; reflexivity.
    + destruct Hin as [<-|[<-|[]]]; [|reflexivity].
      exfalso. apply Hn. now left.
Qed.

Lemma unknown_chunk_type_raises_witness :
  get_semantic_bounderies (PlainText "a b") ["paragraphs"; "lines"]
    default_sentence_boundary_chars default_token_boundary_chars
  = Raise (ValueError "Unknown chunk type: lines").
Proof.
  apply (unknown_chunk_type_raises (PlainText "a b") ["paragraphs"; "lines"]
           default_sentence_boundary_chars default_token_boundary_chars).
  exists "lines". split; [simpl; tauto|].
  unfold known_chunk_types. simpl. intuition discriminate.
Defined.

Lemma list_id_eqb_spec (r1 r2 : list_id) :
  reflect (r1 = r2) (list_id_eqb r1 r2).
Proof.
  destruct r1 as [| |k1|k1], r2 as [| |k2|k2]; simpl;
    try (constructor; congruence);
    destruct (Nat.eqb_spec k1 k2); constructor; congruence.
Qed.

Lemma store_set_same (h : store) (r : list_id) (v : list Z) :
  store_set h r v r = v.
Proof. unfold store_set. now destruct (list_id_eqb_spec r r). Qed.

Lemma store_set_other (h : store) (r r' : list_id) (v : list Z) :
  r' <> r -> store_set h r v r' = h r'.
Proof. unfold store_set. now destruct (list_id_eqb_spec r' r). Qed.

(** What one iteration of the first loop appends and writes. *)
Lemma chunk_level_inv (text : string) (k : nat) (chunk_type : string)
  (h h' : store) (r : list_id) :
  chunk_level text k chunk_type h = Ok (r, h') ->
  (chunk_type = "paragraphs" /\ r = paragraph_start_chars k /\
   exists offsets,
     get_split_offsets text paragraph_boundary_chars = Ok offsets /\
     h' = store_set h r offsets)
  \/ (chunk_type = "sentences" /\ r = sentence_start_chars /\ h' = h)
  \/ (chunk_type = "subparts" /\ r = subpart_start_chars k /\
      exists offsets,
        get_split_offsets text subpart_boundary_chars = Ok offsets /\
        h' = store_set h r offsets)
  \/ (chunk_type = "tokens" /\ r = token_start_chars /\ h' = h).
Proof.
  unfold chunk_level.
  destruct (String.eqb_spec chunk_type "paragraphs") as [->|_].
  { rewrite paragraph_offsets_Ok. simpl. intros [= <- <-]. left. eauto. }
  destruct (String.eqb_spec chunk_type "sentences") as [->|_].
  { intros [= <- <-]. right; left. auto. }
  destruct (String.eqb_spec chunk_type "subparts") as [->|_].
  { rewrite subpart_offsets_Ok. simpl. intros [= <- <-].
    right; right; left. eauto. }
  destruct (String.eqb_spec chunk_type "tokens") as [->|_].
  { intros [= <- <-]. right; right; right. auto. }
  discriminate.
Qed.

Lemma collect_levels_cons_inv (text : string) (ct : string)
  (rest : list string) (k : nat) (h h2 : store) (refs : list list_id) :
  collect_levels text (ct :: rest) k h = Ok (refs, h2) ->
  exists r h1 rs,
    chunk_level text k ct h = Ok (r, h1) /\
    collect_levels text rest (S k) h1 = Ok (rs, h2) /\
    refs = r :: rs.
Proof.
  simpl. destruct (chunk_level text k ct h) as [[r h1]|e]; [|discriminate].
  simpl.
  destruct (collect_levels text rest (S k) h1) as [[rs h2']|e] eqn:E;
    [|discriminate].
  simpl. intros [= <- <-]. now exists r, h1, rs.
Qed.

(** The first loop leaves the lists that existed before it as they were. *)
Lemma collect_levels_frame (text : string) (chunk_types : list string) :
  forall k h refs h',
    collect_levels text chunk_types k h = Ok (refs, h') ->
    forall r, older k r -> h' r = h r.
Proof.
  induction chunk_types as [|ct rest IH]; intros k h refs h' Hc r Hr.
  - simpl in Hc. now injection Hc as _ <-.
  - apply collect_levels_cons_inv in Hc.
    destruct Hc as [r0 [h1 [rs [Hl [Hc _]]]]].
    rewrite (IH _ _ _ _ Hc r)
      by (destruct r; simpl in *; auto; lia).
    apply chunk_level_inv in Hl.
    destruct Hl as [[_ [-> [o [_ ->]]]]|[[_ [_ ->]]|[[_ [-> [o [_ ->]]]]
                   |[_ [_ ->]]]]]; try reflexivity;
      apply store_set_other; destruct r; simpl in Hr; try discriminate;
      intros [= ->]; lia.
Qed.

(** The level that the first loop appends for "subparts" is a list of its
    own that holds the offsets of the Splitter. *)
Lemma collect_levels_subparts (text : string) (chunk_types : list string) :
  forall k h refs h',
    collect_levels text chunk_types k h = Ok (refs, h') ->
    forall i,
      nth_error chunk_types i = Some "subparts" ->
      nth_error refs i = Some (subpart_start_chars (k + i))
      /\ get_split_offsets text subpart_boundary_chars
         = Ok (h' (subpart_start_chars (k + i))).
Proof.
  induction chunk_types as [|ct rest IH]; intros k h refs h' Hc i Hi.
  - destruct i; discriminate.
  - apply collect_levels_cons_inv in Hc.
    destruct Hc as [r0 [h1 [rs [Hl [Hc ->]]]]].
    destruct i as [|i]; simpl in Hi.
    + injection Hi as ->. rewrite Nat.add_0_r.
      apply chunk_level_inv in Hl.
      destruct Hl as [[E _]|[[E _]|[[_ [-> [o [Ho ->]]]]|[E _]]]];
        try discriminate.
      split; [reflexivity|].
      rewrite (collect_levels_frame _ _ _ _ _ _ Hc)
        by (simpl; lia).
      now rewrite store_set_same.
    + replace (k + S i)%nat with (S k + i)%nat by lia.
      now apply (IH _ _ _ _ Hc).
Qed.

Lemma extractor_subparts_only (doc : document)
  (sentence_boundary_chars token_boundary_chars : list string) :
  delimiters_fit doc sentence_boundary_chars token_boundary_chars ->
  get_semantic_bounderies doc ["subparts"] sentence_boundary_chars
    token_boundary_chars
  = Ok [piece_offsets 2 0
          (Re.split subpart_boundary_chars (document_text doc))].
Proof.
  intros Hfit.
  destruct (extractor_prologue doc ["subparts"] _ _ Hfit) as [ss [ts ->]].
  unfold collect_levels, chunk_level.
  change (String.eqb "subparts" "paragraphs") with false.
  change (String.eqb "subparts" "sentences") with false.
  change (String.eqb "subparts" "subparts") with true. cbv iota.
  rewrite subpart_offsets_Ok. simpl bind.
  unfold enforce_subsets. simpl. now rewrite store_set_same.
Qed.

(** C9 (subparts are heuristic).  The "subparts" level is the list of
    Splitter offsets of the text of the document for ": ", "; ", ", ": at
    every position where "subparts" is requested the first loop appends a
    list of its own with these offsets, whatever the sentence and token
    offsets are and wherever they come from.  Requested alone, "subparts"
    gives the one-level hierarchy of these offsets, for the document and for
    every annotated document with the same text (the delimiter arguments of
    a plain text have to pass the check of the Splitter). *)
Theorem subparts_are_heuristic (doc : document)
  (sentence_boundary_chars token_boundary_chars : list string) :
  delimiters_fit doc sentence_boundary_chars token_boundary_chars ->
  exists offsets,
    get_split_offsets (document_text doc) subpart_boundary_chars = Ok offsets
    /\ get_semantic_bounderies doc ["subparts"] sentence_boundary_chars
         token_boundary_chars = Ok [offsets]
    /\ (forall d,
          Doc.text d = document_text doc ->
          get_semantic_bounderies (Annotated d) ["subparts"]
            sentence_boundary_chars token_boundary_chars = Ok [offsets])
    /\ (forall chunk_types sentence_start token_start boundaries h,
          collect_levels (document_text doc) chunk_types 0
            (init_store sentence_start token_start) = Ok (boundaries, h) ->
          forall i,
            nth_error chunk_types i = Some "subparts" ->
            exists r, nth_error boundaries i = Some r /\ h r = offsets).
Proof.
  intros Hfit.
  exists (piece_offsets 2 0
            (Re.split subpart_boundary_chars (document_text doc))).
  split; [apply subpart_offsets_Ok|].
  split; [now apply extractor_subparts_only|].
  split.
  - intros d Hd. rewrite <- Hd.
    now apply (extractor_subparts_only (Annotated d)).
  - intros chunk_types ss ts boundaries h Hc i Hi.
    destruct (collect_levels_subparts _ _ _ _ _ _ Hc i Hi) as [Hr Ho].
    exists (subpart_start_chars (0 + i)). split; [exact Hr|].
    rewrite subpart_offsets_Ok in Ho. injection Ho as Ho. symmetry.
    exact Ho.
Qed.

Lemma subparts_are_heuristic_witness :
  exists offsets,
    get_split_offsets "a, b; c: d" subpart_boundary_chars = Ok offsets
    /\ get_semantic_bounderies (PlainText "a, b; c: d") ["subparts"]
         default_sentence_boundary_chars default_token_boundary_chars
       = Ok [offsets]
    /\ get_semantic_bounderies
         (Annotated {| Doc.text := "a, b; c: d";
                       Doc.sents := [ {| start_char := 0 |} ];
                       Doc.tokens := [ {| idx := 0 |}; {| idx := 3 |};
                                       {| idx := 6 |}; {| idx := 9 |} ] |})
         ["subparts"]
         default_sentence_boundary_chars default_token_boundary_chars
       = Ok [offsets].
Proof.
  destruct (subparts_are_heuristic (PlainText "a, b; c: d")
              default_sentence_boundary_chars default_token_boundary_chars)
    as [offsets [H1 [H2 [H3 _]]]].
  - split; (split; [discriminate|]);
      intros d1 d2 H1 H2; simpl in H1, H2;
      repeat match goal with
             | H : _ \/ _ |- _ => destruct H as [<-|H]
             | H : False |- _ => contradiction
             end; reflexivity.
  - exists offsets. split; [exact H1|]. split; [exact H2|].
    apply H3. reflexivity.
Defined.

(** ** The Boundary Extractor: the second loop *)

Lemma midpoint_bounds (lo hi : nat) :
  (lo < hi)%nat -> (lo <= (lo + hi) / 2 < hi)%nat.
Proof.
  intros Hlt. split.
  - apply Nat.div_le_lower_bound; lia.
  - apply Nat.Div0.div_lt_upper_bound; lia.
Qed.

Lemma bisect_left_loop_S (fuel : nat) (a : list Z) (x : Z) (lo hi : nat) :
  bisect_left_loop (S fuel) a x lo hi
  = if (lo <? hi)%nat then
      if nth ((lo + hi) / 2) a 0 <? x
      then bisect_left_loop fuel a x ((lo + hi) / 2 + 1)%nat hi
      else bisect_left_loop fuel a x lo ((lo + hi) / 2)%nat
    else lo.
Proof. reflexivity. Qed.

(** The fuel of [bisect_left] is enough: any two amounts of at least
    [hi - lo] give the same index. *)
Lemma bisect_left_loop_fuel (a : list Z) (x : Z) :
  forall fuel1 fuel2 lo hi,
    (hi - lo <= fuel1)%nat -> (hi - lo <= fuel2)%nat ->
    bisect_left_loop fuel1 a x lo hi = bisect_left_loop fuel2 a x lo hi.
Proof.
  induction fuel1 as [|fuel1 IH]; intros fuel2 lo hi H1 H2.
  - destruct fuel2; [reflexivity|]. rewrite bisect_left_loop_S.
    destruct (Nat.ltb_spec lo hi); [lia|reflexivity].
  - rewrite bisect_left_loop_S.
    destruct (Nat.ltb_spec lo hi) as [Hlt|].
    + destruct fuel2; [lia|]. rewrite bisect_left_loop_S.
      destruct (Nat.ltb_spec lo hi); [|lia].
      pose proof (midpoint_bounds lo hi Hlt) as Hmid.
      destruct (nth ((lo + hi) / 2) a 0 <? x); apply IH; lia.
    + destruct fuel2; [reflexivity|]. rewrite bisect_left_loop_S.
      destruct (Nat.ltb_spec lo hi); [lia|reflexivity].
Qed.

(** The index that [bisect_left] finds lies in the list. *)
Lemma bisect_left_loop_bounds (a : list Z) (x : Z) :
  forall fuel lo hi,
    (lo <= hi)%nat ->
    (lo <= bisect_left_loop fuel a x lo hi <= hi)%nat.
Proof.
  induction fuel as [|fuel IH]; intros lo hi Hle; [simpl; lia|].
  rewrite bisect_left_loop_S.
  destruct (Nat.ltb_spec lo hi) as [Hlt|]; [|lia].
  pose proof (midpoint_bounds lo hi Hlt) as Hmid.
  destruct (nth ((lo + hi) / 2) a 0 <? x).
  - specialize (IH ((lo + hi) / 2 + 1)%nat hi). lia.
  - specialize (IH lo ((lo + hi) / 2)%nat). lia.
Qed.

Lemma bisect_left_le_length (a : list Z) (x : Z) :
  (bisect_left a x <= List.length a)%nat.
Proof.
  unfold bisect_left.
  pose proof (bisect_left_loop_bounds a x (List.length a) 0 (List.length a)).
  lia.
Qed.

Lemma list_insert_In (i : nat) (x : Z) (a : list Z) (y : Z) :
  In y (list_insert i x a) <-> y = x \/ In y a.
Proof.
  unfold list_insert. rewrite in_app_iff. simpl.
  assert (Ha : In y a <-> In y (firstn i a) \/ In y (skipn i a))
    by (now rewrite <- in_app_iff, firstn_skipn).
  intuition congruence.
Qed.

Lemma insort_left_In (a : list Z) (x y : Z) :
  In y (insort_left a x) <-> y = x \/ In y a.
Proof. apply list_insert_In. Qed.

Lemma insort_left_length (a : list Z) (x : Z) :
  List.length (insort_left a x) = S (List.length a).
Proof.
  unfold insort_left, list_insert.
  generalize (bisect_left a x) as i. intros i.
  rewrite length_app. simpl.
  pose proof (f_equal (@List.length Z) (firstn_skipn i a)) as Hl.
  rewrite length_app in Hl. lia.
Qed.

Section Propagation.

Variable rj : list_id.

Lemma insert_missing_other (h : store) (b : Z) (r : list_id) :
  r <> rj -> insert_missing rj h b r = h r.
Proof.
  intros Hr. unfold insert_missing.
  destruct (contains (h rj) b); [reflexivity|now apply store_set_other].
Qed.

Lemma insert_missing_In (h : store) (b x : Z) :
  In x (insert_missing rj h b rj) <-> x = b \/ In x (h rj).
Proof.
  unfold insert_missing. destruct (contains (h rj) b) eqn:E.
  - apply contains_In in E. intuition congruence.
  - rewrite store_set_same. apply insort_left_In.
Qed.

Lemma insert_missing_present (h : store) (b : Z) :
  In b (h rj) -> insert_missing rj h b = h.
Proof.
  intros Hb. unfold insert_missing.
  apply contains_In in Hb. now rewrite Hb.
Qed.

Lemma fold_insert_missing_other (l : list Z) (r : list_id) :
  r <> rj -> forall h, fold_left (insert_missing rj) l h r = h r.
Proof.
  intros Hr. induction l as [|b l IH]; intros h; simpl; [reflexivity|].
  rewrite IH. now apply insert_missing_other.
Qed.

Lemma fold_insert_missing_In (l : list Z) (x : Z) :
  forall h,
    In x (fold_left (insert_missing rj) l h rj) <-> In x (h rj) \/ In x l.
Proof.
  induction l as [|b l IH]; intros h; simpl; [tauto|].
  rewrite IH, insert_missing_In. intuition congruence.
Qed.

Lemma fold_insert_missing_present (l : list Z) (h : store) :
  incl l (h rj) -> fold_left (insert_missing rj) l h = h.
Proof.
  induction l as [|b l IH]; intros Hl; simpl; [reflexivity|].
  rewrite insert_missing_present by (apply Hl; now left).
  apply IH. intros y Hy. apply Hl. now right.
Qed.

End Propagation.

(** Iterating over a list and inserting into the same list writes
    nothing. *)
Lemma propagate_same (h : store) (r : list_id) : propagate h r r = h.
Proof. apply fold_insert_missing_present, incl_refl. Qed.

Lemma propagate_other (h : store) (ri rj r : list_id) :
  r <> rj -> propagate h ri rj r = h r.
Proof. intros Hr. now apply fold_insert_missing_other. Qed.

(** As sets, [propagate] adds the offsets of [ri] to [rj]. *)
Lemma propagate_In (h : store) (ri rj : list_id) (x : Z) :
  In x (propagate h ri rj rj) <-> In x (h rj) \/ In x (h ri).
Proof. apply fold_insert_missing_In. Qed.

Lemma propagate_mono (h : store) (ri rj r : list_id) (x : Z) :
  In x (h r) -> In x (propagate h ri rj r).
Proof.
  intros Hx. destruct (list_id_eqb_spec r rj) as [->|Hr].
  - apply propagate_In. now left.
  - now rewrite propagate_other.
Qed.

Section InnerLoop.

Variable ri : list_id.

Local Abbreviation inner := (fold_left (fun h rj => propagate h ri rj)).

Lemma inner_loop_mono (finer : list list_id) (r : list_id) (x : Z) :
  forall h, In x (h r) -> In x (inner finer h r).
Proof.
  induction finer as [|r0 finer IH]; intros h Hx; simpl; [exact Hx|].
  now apply IH, propagate_mono.
Qed.

Lemma inner_loop_other (finer : list list_id) (r : list_id) :
  ~ In r finer -> forall h, inner finer h r = h r.
Proof.
  induction finer as [|r0 finer IH]; intros Hr h; simpl; [reflexivity|].
  rewrite IH by (intros Hin; apply Hr; now right).
  apply propagate_other. intros ->. apply Hr. now left.
Qed.

(** When the level [ri] does not occur again among the finer levels, the
    inner loop puts its offsets into each of them. *)
Lemma inner_loop_adds (finer : list list_id) (rj : list_id) (x : Z) :
  ~ In ri finer -> In rj finer ->
  forall h, In x (h ri) -> In x (inner finer h rj).
Proof.
  induction finer as [|r0 finer IH]; intros Hri Hrj h Hx; [contradiction|].
  simpl. destruct (list_id_eqb_spec rj r0) as [->|Hne].
  - apply inner_loop_mono, propagate_In. now right.
  - apply IH.
    + intros Hin. apply Hri. now right.
    + destruct Hrj as [->|Hrj]; [contradiction|exact Hrj].
    + rewrite propagate_other; [exact Hx|].
      intros ->. apply Hri. now left.
Qed.

End InnerLoop.

Lemma enforce_from_mono (boundaries : list list_id) (r : list_id) (x : Z) :
  forall h, In x (h r) -> In x (enforce_from boundaries h r).
Proof.
  induction boundaries as [|ri finer IH]; intros h Hx; simpl; [exact Hx|].
  now apply IH, inner_loop_mono.
Qed.

Lemma enforce_from_other (boundaries : list list_id) (r : list_id) :
  ~ In r boundaries -> forall h, enforce_from boundaries h r = h r.
Proof.
  induction boundaries as [|ri finer IH]; intros Hr h; simpl; [reflexivity|].
  rewrite IH by (intros Hin; apply Hr; now right).
  apply inner_loop_other. intros Hin. apply Hr. now right.
Qed.

(** When no list stands at two levels, the two loops establish the subset
    invariant. *)
Lemma enforce_from_subset_invariant (boundaries : list list_id) :
  NoDup boundaries ->
  forall h, subset_invariant (map (enforce_from boundaries h) boundaries).
Proof.
  induction 1 as [|ri finer Hri _ IH]; intros h.
  - apply subset_invariant_nil.
  - cbn [map enforce_from]. apply subset_invariant_cons. split.
    + apply Forall_map, Forall_forall. intros rj Hrj x Hx.
      rewrite enforce_from_other, inner_loop_other in Hx by exact Hri.
      now apply enforce_from_mono, inner_loop_adds.
    + apply IH.
Qed.

(** The loops over indices are the loops over the levels. *)
Lemma inner_loop_seq (G : store -> list_id -> store) (dflt : list_id)
  (finer : list list_id) :
  forall (pre : list list_id) (h : store),
    fold_left (fun h j => G h (nth j (pre ++ finer) dflt))
      (seq (List.length pre) (List.length finer)) h
    = fold_left G finer h.
Proof.
  induction finer as [|r finer IH]; intros pre h; [reflexivity|].
  cbn [List.length seq fold_left].
  rewrite nth_middle.
  specialize (IH (pre ++ [r])%list (G h r)).
  replace (List.length (pre ++ [r])) with (S (List.length pre)) in IH
    by (rewrite length_app; simpl; lia).
  rewrite <- app_assoc in IH. exact IH.
Qed.

Lemma outer_loop_seq (dflt : list_id) (boundaries : list list_id) :
  forall (pre : list list_id) (h : store),
    fold_left
      (fun h i =>
         fold_left
           (fun h j => propagate h (nth i (pre ++ boundaries) dflt)
                                   (nth j (pre ++ boundaries) dflt))
           (seq (i + 1) (List.length (pre ++ boundaries) - (i + 1))) h)
      (seq (List.length pre) (List.length boundaries)) h
    = enforce_from boundaries h.
Proof.
  induction boundaries as [|ri finer IH]; intros pre h; [reflexivity|].
  cbn [List.length seq fold_left enforce_from].
  rewrite nth_middle.
  specialize (IH (pre ++ [ri])%list).
  replace (List.length (pre ++ [ri])) with (S (List.length pre)) in IH
    by (rewrite length_app; simpl; lia).
  rewrite <- app_assoc in IH. cbn [app] in IH. rewrite IH. f_equal.
  replace (List.length (pre ++ ri :: finer) - (List.length pre + 1))%nat
    with (List.length finer) by (rewrite length_app; simpl; lia).
  pose proof (inner_loop_seq (fun h rj => propagate h ri rj) dflt finer
                (pre ++ [ri])%list h) as Hin.
  replace (List.length (pre ++ [ri])) with (List.length pre + 1)%nat in Hin
    by (rewrite length_app; reflexivity).
  rewrite <- app_assoc in Hin. exact Hin.
Qed.

Lemma enforce_subsets_from (boundaries : list list_id) (h : store) :
  enforce_subsets boundaries h = enforce_from boundaries h.
Proof.
  rewrite <- (outer_loop_seq sentence_start_chars boundaries [] h).
  unfold enforce_subsets. cbn [app List.length].
  destruct (List.length boundaries) as [|m] eqn:E; [reflexivity|].
  rewrite seq_S, fold_left_app. cbn [fold_left Nat.add].
  replace (S m - 1)%nat with m by lia.
  replace (S m - (m + 1))%nat with 0%nat by lia. reflexivity.
Qed.

(** ** The Boundary Extractor: the hierarchy it returns *)

Lemma get_semantic_bounderies_inv (doc : document)
  (chunk_types sentence_boundary_chars token_boundary_chars : list string)
  (levels : list (list Z)) :
  get_semantic_bounderies doc chunk_types sentence_boundary_chars
    token_boundary_chars = Ok levels ->
  exists sentence_start token_start boundaries h,
    collect_levels (document_text doc) chunk_types 0
      (init_store sentence_start token_start) = Ok (boundaries, h)
    /\ levels = map (enforce_subsets boundaries h) boundaries.
Proof.
  unfold get_semantic_bounderies.
  destruct doc as [text|d]; simpl.
  - destruct (get_split_offsets text sentence_boundary_chars) as [ss|e];
      [|discriminate].
    destruct (get_split_offsets text token_boundary_chars) as [ts|e];
      [|discriminate].
    simpl.
    destruct (collect_levels text chunk_types 0 (init_store ss ts))
      as [[boundaries h]|e] eqn:E; [|discriminate].
    simpl. intros [= <-]. now exists ss, ts, boundaries, h.
  - destruct (collect_levels (Doc.text d) chunk_types 0
                (init_store (map start_char (Doc.sents d))
                   (map idx (Doc.tokens d))))
      as [[boundaries h]|e] eqn:E; [|discriminate].
    simpl. intros [= <-]. eexists _, _, boundaries, h. split; [exact E|].
    reflexivity.
Qed.

(** Where the references that the first loop appends come from. *)
Lemma collect_levels_refs (text : string) (chunk_types : list string) :
  forall k h refs h',
    collect_levels text chunk_types k h = Ok (refs, h') ->
    forall r,
      In r refs ->
      match r with
      | sentence_start_chars => In "sentences" chunk_types
      | token_start_chars => In "tokens" chunk_types
      | paragraph_start_chars j | subpart_start_chars j => (k <= j)%nat
      end.
Proof.
  induction chunk_types as [|ct rest IH]; intros k h refs h' Hc r Hr.
  - simpl in Hc. injection Hc as <- _. contradiction.
  - apply collect_levels_cons_inv in Hc.
    destruct Hc as [r0 [h1 [rs [Hl [Hc ->]]]]].
    destruct Hr as [<-|Hr].
    + apply chunk_level_inv in Hl.
      destruct Hl as [[_ [-> _]]|[[-> [-> _]]|[[_ [-> _]]|[-> [-> _]]]]];
        simpl; auto.
    + specialize (IH _ _ _ _ Hc r Hr).
      destruct r; simpl; auto; lia.
Qed.

(** A name requested once stands for a list that is at one level only. *)
Lemma collect_levels_NoDup (text : string) (chunk_types : list string) :
  (count_occ string_dec chunk_types "sentences" <= 1)%nat ->
  (count_occ string_dec chunk_types "tokens" <= 1)%nat ->
  forall k h refs h',
    collect_levels text chunk_types k h = Ok (refs, h') -> NoDup refs.
Proof.
  induction chunk_types as [|ct rest IH]; intros Hs Ht k h refs h' Hc.
  - simpl in Hc. injection Hc as <- _. constructor.
  - apply collect_levels_cons_inv in Hc.
    destruct Hc as [r0 [h1 [rs [Hl [Hc ->]]]]].
    simpl in Hs, Ht. constructor.
    + intros Hin. pose proof (collect_levels_refs _ _ _ _ _ _ Hc r0 Hin) as Ho.
      apply chunk_level_inv in Hl.
      destruct Hl as [[_ [-> _]]|[[-> [-> _]]|[[_ [-> _]]|[-> [-> _]]]]];
        simpl in Ho; try lia.
      * apply (count_occ_In string_dec) in Ho.
        destruct (string_dec "sentences" "sentences"); [lia|congruence].
      * apply (count_occ_In string_dec) in Ho.
        destruct (string_dec "tokens" "tokens"); [lia|congruence].
    + apply (IH ltac:(destruct (string_dec ct "sentences"); lia)
                ltac:(destruct (string_dec ct "tokens"); lia) _ _ _ _ Hc).
Qed.

(** The subset invariant of the Extractor, where it holds: a list of
    granularity names in which "sentences" and "tokens" each stand at most
    once gives a hierarchy with the subset invariant. *)
Theorem extractor_subset_invariant_distinct_levels (doc : document)
  (chunk_types sentence_boundary_chars token_boundary_chars : list string)
  (levels : list (list Z)) :
  (count_occ string_dec chunk_types "sentences" <= 1)%nat ->
  (count_occ string_dec chunk_types "tokens" <= 1)%nat ->
  get_semantic_bounderies doc chunk_types sentence_boundary_chars
    token_boundary_chars = Ok levels ->
  subset_invariant levels.
Proof.
  intros Hs Ht Hr.
  apply get_semantic_bounderies_inv in Hr.
  destruct Hr as [ss [ts [boundaries [h [Hc ->]]]]].
  rewrite enforce_subsets_from.
  apply enforce_from_subset_invariant.
  exact (collect_levels_NoDup _ _ Hs Ht _ _ _ _ Hc).
Qed.

Lemma extractor_subset_invariant_distinct_levels_witness :
  subset_invariant
    [[0]; [0; 15; 29]; [0; 10; 15; 24; 29]; [0; 3; 10; 15; 19; 24; 29]].
Proof.
  apply (extractor_subset_invariant_distinct_levels
           (PlainText "Hi there, you. How are: you? Fine")
           default_chunk_types default_sentence_boundary_chars
           default_token_boundary_chars).
  - simpl. lia.
  - simpl. lia.
  - reflexivity.
Defined.

(** A request that is not ordered from larger chunks to smaller ones can
    lose the subset invariant.  For the text "a b" and the request
    "sentences", "paragraphs", "tokens", "sentences", levels 0 and 3 are the
    one list [sentence_start_chars]; the pass for level 2 inserts the token
    offset 2 into it after the pass for level 0 is over, so level 0 has the
    offset 2 and level 1 has not. *)
Theorem extractor_shared_list_breaks_subset_invariant :
  get_semantic_bounderies (PlainText "a b")
    ["sentences"; "paragraphs"; "tokens"; "sentences"]
    default_sentence_boundary_chars default_token_boundary_chars
  = Ok [[0; 2]; [0]; [0; 2]; [0; 2]]
  /\ ~ subset_invariant [[0; 2]; [0]; [0; 2]; [0; 2]].
Proof.
  split; [reflexivity|].
  intros H.
  specialize (H 0%nat 1%nat [0; 2] [0] ltac:(lia) eq_refl eq_refl 2
                ltac:(simpl; tauto)).
  simpl in H. destruct H as [H|[]]. discriminate H.
Qed.

(** * Further properties *)

(** ** More on the Boundary Offset Splitter *)

Lemma get_split_offsets_Ok_inv (text : string) (delimiters : list string)
  (offsets : list Z) :
  get_split_offsets text delimiters = Ok offsets ->
  uniform_delimiters delimiters
  /\ exists d0,
       In d0 delimiters
       /\ offsets = piece_offsets (Z.of_nat (String.length d0)) 0
                      (Re.split delimiters text).
Proof.
  unfold get_split_offsets.
  destruct delimiters as [|d0 rest]; [discriminate|].
  destruct (forallb _ rest) eqn:Hall; [|discriminate].
  rewrite split_offsets_loop. intros [= <-].
  rewrite forallb_forall in Hall.
  assert (Hlen : forall d, In d (d0 :: rest) ->
                           String.length d = String.length d0).
  { intros d [<-|Hd]; [reflexivity|]. now apply Nat.eqb_eq, Hall. }
  split.
  - split; [discriminate|]. intros d1 d2 H1 H2.
    now rewrite (Hlen d1 H1), (Hlen d2 H2).
  - exists d0. split; [now left|reflexivity].
Qed.

(** When the Splitter returns and when it raises which exception: it returns
    exactly on a non-empty list of delimiters of one length, raises
    [IndexError] exactly on the empty list, and [AssertionError] on every
    other list; the text plays no part in this. *)
Theorem get_split_offsets_outcome (text : string) (delimiters : list string) :
  (uniform_delimiters delimiters
   <-> exists offsets, get_split_offsets text delimiters = Ok offsets)
  /\ (delimiters = []
      <-> get_split_offsets text delimiters = Raise IndexError)
  /\ (delimiters <> [] /\ ~ uniform_delimiters delimiters
      <-> get_split_offsets text delimiters = Raise AssertionError).
Proof.
  split; [|split].
  - split; [apply get_split_offsets_Ok|].
    intros [offsets H]. now apply get_split_offsets_Ok_inv in H.
  - split; [now intros ->|].
    destruct delimiters as [|d0 rest]; [reflexivity|].
    unfold get_split_offsets. now destruct (forallb _ rest).
  - split.
    + intros [Hne Hnu].
      destruct (get_split_offsets text delimiters) as [o|[| |msg]] eqn:E.
      * apply get_split_offsets_Ok_inv in E. tauto.
      * destruct delimiters; [contradiction|].
        unfold get_split_offsets in E. now destruct (forallb _ delimiters).
      * reflexivity.
      * destruct delimiters as [|d0 rest]; [contradiction|].
        unfold get_split_offsets in E. now destruct (forallb _ rest).
    + intros E. split.
      * intros ->. discriminate E.
      * intros Hu. destruct (get_split_offsets_Ok text _ Hu) as [o Ho].
        congruence.
Qed.

Lemma piece_offsets_lower (delimiter_len : Z) (pieces : list string) :
  0 <= delimiter_len ->
  forall start_char,
    Forall (fun o => start_char <= o)
      (piece_offsets delimiter_len start_char pieces).
Proof.
  intros HL. induction pieces as [|p rest IH]; intros start_char; simpl;
    constructor; [lia|].
  eapply Forall_impl; [|apply IH]. intros o Ho. simpl in Ho. lia.
Qed.

Lemma piece_offsets_sorted_le (delimiter_len : Z) (pieces : list string) :
  0 <= delimiter_len ->
  forall start_char,
    StronglySorted Z.le (piece_offsets delimiter_len start_char pieces).
Proof.
  intros HL. induction pieces as [|p rest IH]; intros start_char; simpl;
    constructor; [apply IH|].
  eapply Forall_impl; [|apply (piece_offsets_lower _ _ HL)].
  intros o Ho. simpl in Ho. lia.
Qed.

Lemma piece_offsets_sorted_lt (delimiter_len : Z) (pieces : list string) :
  0 < delimiter_len ->
  forall start_char,
    StronglySorted Z.lt (piece_offsets delimiter_len start_char pieces).
Proof.
  intros HL. induction pieces as [|p rest IH]; intros start_char; simpl;
    constructor; [apply IH|].
  eapply Forall_impl; [|apply (piece_offsets_lower _ rest)]; [|lia].
  intros o Ho. simpl in Ho. lia.
Qed.

Lemma string_length_pos (d : string) : d <> "" -> (0 < String.length d)%nat.
Proof. destruct d; [congruence|simpl; lia]. Qed.

Lemma split_offsets_well_formed (text : string) (delimiters : list string)
  (offsets : list Z) :
  proper_delimiters delimiters ->
  get_split_offsets text delimiters = Ok offsets ->
  well_formed_level offsets.
Proof.
  intros Hp H. apply get_split_offsets_Ok_inv in H.
  destruct H as [_ [d0 [Hd0 ->]]]. split.
  - apply StronglySorted_Sorted, piece_offsets_sorted_lt.
    pose proof (string_length_pos d0 (Hp d0 Hd0)). lia.
  - unfold Re.split.
    pose proof (ReFacts.split_from_not_nil delimiters text 0 "") as Hnn.
    destruct (Re.split_from delimiters 0 "" text); [contradiction|].
    reflexivity.
Qed.

(** The offsets of the Splitter are in order: never descending, and strictly
    ascending from 0 when the delimiters are not empty strings. *)
Theorem get_split_offsets_ascending (text : string)
  (delimiters : list string) (offsets : list Z) :
  get_split_offsets text delimiters = Ok offsets ->
  Sorted Z.le offsets
  /\ (proper_delimiters delimiters -> well_formed_level offsets).
Proof.
  intros H. split.
  - apply get_split_offsets_Ok_inv in H. destruct H as [_ [d0 [_ ->]]].
    apply StronglySorted_Sorted, piece_offsets_sorted_le. lia.
  - intros Hp. now apply (split_offsets_well_formed text delimiters).
Qed.

Lemma get_split_offsets_ascending_witness :
  Sorted Z.le [0; 3; 6; 9] /\ well_formed_level [0; 3; 6; 9].
Proof.
  destruct (get_split_offsets_ascending "a. b? c! " [". "; "? "; "! "]
              [0; 3; 6; 9] eq_refl) as [Hle Hwf].
  split; [exact Hle|]. apply Hwf.
  intros d Hd. simpl in Hd.
  repeat match goal with
         | H : _ \/ _ |- _ => destruct H as [<-|H]
         | H : False |- _ => contradiction
         end; discriminate.
Defined.

Lemma pieces_span_cons (delimiter_len : Z) (p : string)
  (rest : list string) :
  rest <> [] ->
  pieces_span delimiter_len (p :: rest)
  = Z.of_nat (String.length p) + delimiter_len
    + pieces_span delimiter_len rest.
Proof. destruct rest; [contradiction|]. intros _. cbn [pieces_span]. lia. Qed.

Lemma pieces_span_nonneg (delimiter_len : Z) (pieces : list string) :
  0 <= delimiter_len -> 0 <= pieces_span delimiter_len pieces.
Proof.
  intros HL. induction pieces as [|p rest IH]; [reflexivity|].
  cbn [pieces_span]. destruct rest; lia.
Qed.

Lemma prefix_length (d s : string) :
  String.prefix d s = true -> (String.length d <= String.length s)%nat.
Proof.
  intros H. destruct (ReFacts.prefix_split d s H) as [rest ->].
  rewrite string_length_app. lia.
Qed.

Lemma match_here_advance (alts : list string) (s : string) (m : nat) :
  Re.match_here alts true s = Some m -> m <> 0%nat.
Proof.
  induction alts as [|d alts IH]; simpl; [discriminate|].
  destruct (Nat.eqb_spec (String.length d) 0) as [E|E]; simpl.
  - rewrite andb_false_r. exact IH.
  - rewrite andb_true_r. destruct (String.prefix d s); [|exact IH].
    now intros [= <-].
Qed.

(** The pieces of [re.split] and the delimiters between them span the
    text. *)
Lemma split_from_span (alts : list string) (delimiter_len : nat) :
  (forall d, In d alts -> String.length d = delimiter_len) ->
  forall s skip cur,
    (skip <= String.length s)%nat ->
    pieces_span (Z.of_nat delimiter_len) (Re.split_from alts skip cur s)
    = Z.of_nat (String.length cur) + Z.of_nat (String.length s)
      - Z.of_nat skip.
Proof.
  intros Hlen.
  assert (Hm : forall adv s m,
             Re.match_here alts adv s = Some m ->
             m = delimiter_len /\ (m <= String.length s)%nat).
  { intros adv s m H. apply ReFacts.match_here_Some in H.
    destruct H as [d [Hd [Hp <-]]]. split; [now apply Hlen|].
    now apply prefix_length. }
  induction s as [|c s IH]; intros skip cur Hskip.
  - simpl in Hskip. assert (skip = 0%nat) as -> by lia.
    cbn [Re.split_from].
    destruct (Re.match_here alts false "") as [[|k]|] eqn:E.
    + destruct (Hm _ _ _ E) as [<- _].
      destruct (Re.match_here alts true "") as [[|k]|];
        cbn [pieces_span String.length]; lia.
    + destruct (Hm _ _ _ E) as [_ Hle]. simpl in Hle. lia.
    + cbn [pieces_span String.length]. lia.
  - destruct skip as [|skip].
    + cbn [Re.split_from].
      destruct (Re.match_here alts false (String c s)) as [[|k]|] eqn:E.
      * destruct (Hm _ _ _ E) as [<- _].
        assert (Hgo : Re.split_from alts 0 (String c "") s <> [])
          by apply ReFacts.split_from_not_nil.
        destruct (Re.match_here alts true (String c s)) as [[|k]|] eqn:E'.
        -- now apply match_here_advance in E'.
        -- destruct (Hm _ _ _ E'). discriminate.
        -- rewrite pieces_span_cons by exact Hgo. rewrite IH by lia.
           cbn [String.length]. lia.
      * destruct (Hm _ _ _ E) as [<- Hle]. simpl in Hle.
        rewrite pieces_span_cons by apply ReFacts.split_from_not_nil.
        rewrite IH by lia. cbn [String.length]. lia.
      * rewrite IH by lia. rewrite string_length_app.
        cbn [String.length]. lia.
    + cbn [Re.split_from]. simpl in Hskip. rewrite IH by lia.
      cbn [String.length]. lia.
Qed.

Lemma piece_offsets_upper (delimiter_len : Z) (pieces : list string) :
  0 <= delimiter_len ->
  forall start_char,
    Forall (fun o => o <= start_char + pieces_span delimiter_len pieces)
      (piece_offsets delimiter_len start_char pieces).
Proof.
  intros HL. induction pieces as [|p rest IH]; intros start_char;
    [constructor|].
  cbn [piece_offsets]. constructor.
  - pose proof (pieces_span_nonneg delimiter_len (p :: rest) HL). lia.
  - destruct rest as [|q rest]; [constructor|].
    eapply Forall_impl; [|apply IH]. intros o Ho. cbv beta in Ho.
    rewrite pieces_span_cons by discriminate. lia.
Qed.

Lemma piece_offsets_last (delimiter_len : Z) (pieces : list string) :
  pieces <> [] ->
  forall start_char,
    last (piece_offsets delimiter_len start_char pieces) 0
    + Z.of_nat (String.length (last pieces ""))
    = start_char + pieces_span delimiter_len pieces.
Proof.
  induction pieces as [|p rest IH]; intros Hne start_char; [contradiction|].
  destruct rest as [|q rest]; [simpl; lia|].
  rewrite pieces_span_cons by discriminate.
  change (last (p :: q :: rest) "") with (last (q :: rest) "").
  change (last (piece_offsets delimiter_len start_char (p :: q :: rest)) 0)
    with (last (piece_offsets delimiter_len
                  (start_char + (Z.of_nat (String.length p) + delimiter_len))
                  (q :: rest)) 0).
  rewrite IH by discriminate. lia.
Qed.

(** The offsets of the Splitter stay inside the text, and the last piece
    ends where the text ends: pieces and delimiters cover the text. *)
Theorem get_split_offsets_cover_text (text : string)
  (delimiters : list string) (offsets : list Z) :
  get_split_offsets text delimiters = Ok offsets ->
  Forall (fun o => 0 <= o <= Z.of_nat (String.length text)) offsets
  /\ last offsets 0
     + Z.of_nat (String.length (last (Re.split delimiters text) ""))
     = Z.of_nat (String.length text).
Proof.
  intros H. apply get_split_offsets_Ok_inv in H.
  destruct H as [[_ Hu] [d0 [Hd0 ->]]].
  assert (Hspan : pieces_span (Z.of_nat (String.length d0))
                    (Re.split delimiters text)
                  = Z.of_nat (String.length text)).
  { unfold Re.split. rewrite (split_from_span delimiters (String.length d0)).
    - simpl. lia.
    - intros d Hd. now apply Hu.
    - lia. }
  split.
  - apply Forall_forall. intros o Ho.
    pose proof (piece_offsets_lower (Z.of_nat (String.length d0))
                  (Re.split delimiters text) ltac:(lia) 0) as Hlo.
    pose proof (piece_offsets_upper (Z.of_nat (String.length d0))
                  (Re.split delimiters text) ltac:(lia) 0) as Hhi.
    rewrite Forall_forall in Hlo, Hhi.
    specialize (Hlo o Ho). specialize (Hhi o Ho). simpl in Hlo, Hhi. lia.
  - rewrite piece_offsets_last by apply ReFacts.split_from_not_nil.
    rewrite Hspan. lia.
Qed.

Lemma get_split_offsets_cover_text_witness :
  Forall (fun o => 0 <= o <= 9) [0; 3; 6; 9]
  /\ last [0; 3; 6; 9] 0 + 0 = 9.
Proof.
  exact (get_split_offsets_cover_text "a. b? c! " [". "; "? "; "! "]
           [0; 3; 6; 9] eq_refl).
Defined.

Lemma leftmost_split_not_nil (alts : list string) (text : string)
  (pieces : list string) :
  leftmost_split alts text pieces -> pieces <> [].
Proof. destruct 1; discriminate. Qed.

Lemma leftmost_split_delimiter_before (alts : list string)
  (delimiter_len : nat) (text : string) (pieces : list string) :
  (forall d, In d alts -> String.length d = delimiter_len) ->
  leftmost_split alts text pieces ->
  forall start_char k o,
    nth_error (piece_offsets (Z.of_nat delimiter_len) start_char pieces)
      (S k) = Some o ->
    exists pre d post,
      text = (pre ++ d ++ post)%string /\ In d alts
      /\ o = start_char + Z.of_nat (String.length pre)
             + Z.of_nat (String.length d).
Proof.
  intros Hlen Hsplit.
  induction Hsplit as [s Hs|p0 d rest pieces Hd Hno Hsplit IH];
    intros start_char k o Ho.
  - destruct k; discriminate.
  - cbn [piece_offsets nth_error] in Ho. destruct k as [|k].
    + pose proof (leftmost_split_not_nil _ _ _ Hsplit) as Hne.
      destruct pieces as [|q pieces]; [contradiction|].
      simpl in Ho. injection Ho as <-.
      exists p0, d, rest. split; [reflexivity|]. split; [exact Hd|].
      rewrite (Hlen d Hd). lia.
    + destruct (IH _ _ _ Ho) as [pre [d' [post [-> [Hd' ->]]]]].
      exists (p0 ++ d ++ pre)%string, d', post. split.
      * now rewrite !string_app_assoc.
      * split; [exact Hd'|].
        rewrite !string_length_app, (Hlen d Hd). lia.
Qed.

(** Every offset of the Splitter but the first stands right behind a
    delimiter in the text (delimiters that are not empty strings). *)
Theorem get_split_offsets_behind_delimiter (text : string)
  (delimiters : list string) (offsets : list Z) :
  proper_delimiters delimiters ->
  get_split_offsets text delimiters = Ok offsets ->
  forall k o,
    nth_error offsets (S k) = Some o ->
    exists pre d post,
      text = (pre ++ d ++ post)%string /\ In d delimiters
      /\ o = Z.of_nat (String.length pre) + Z.of_nat (String.length d).
Proof.
  intros Hp H k o Ho. apply get_split_offsets_Ok_inv in H.
  destruct H as [[_ Hu] [d0 [Hd0 ->]]].
  destruct (leftmost_split_delimiter_before delimiters (String.length d0)
              text (Re.split delimiters text)
              (fun d Hd => Hu d d0 Hd Hd0)
              (ReFacts.split_leftmost delimiters text Hp) 0 k o Ho)
    as [pre [d [post [Ht [Hd Hpos]]]]].
  exists pre, d, post. split; [exact Ht|]. split; [exact Hd|lia].
Qed.

Lemma get_split_offsets_behind_delimiter_witness :
  exists pre d post,
    "a. b? c! " = (pre ++ d ++ post)%string
    /\ In d [". "; "? "; "! "]
    /\ 6 = Z.of_nat (String.length pre) + Z.of_nat (String.length d).
Proof.
  apply (get_split_offsets_behind_delimiter "a. b? c! " [". "; "? "; "! "]
           [0; 3; 6; 9]) with (k := 1%nat).
  - intros d Hd. simpl in Hd.
    repeat match goal with
           | H : _ \/ _ |- _ => destruct H as [<-|H]
           | H : False |- _ => contradiction
           end; discriminate.
  - reflexivity.
  - reflexivity.
Defined.

(** ** More on the Boundary Adapter *)

Section AdapterOrder.

Variables (chunk_char_offset chunk_len added_chars_len added_chars_end_pos : Z).

Local Abbreviation shift :=
  (shift_offset chunk_char_offset added_chars_len added_chars_end_pos).
Local Abbreviation scan :=
  (adapt_level chunk_char_offset chunk_len added_chars_len
     added_chars_end_pos).

(** The inner loop keeps the order of an ascending level. *)
Lemma adapt_level_sorted (level : list Z) :
  0 <= added_chars_len -> StronglySorted Z.lt level ->
  StronglySorted Z.lt (scan level).
Proof.
  intros Hlen Hs. induction Hs as [|b rest Hs IH Hb]; simpl; [constructor|].
  destruct (adapt_offset _ _ _ _ b) as [v| |] eqn:E;
    [|exact IH|constructor].
  apply adapt_offset_Keep in E. destruct E as [-> _].
  constructor; [exact IH|].
  apply Forall_forall. intros w Hw.
  apply adapt_level_In in Hw. destruct Hw as [[b' [Hb' ->]] _].
  rewrite Forall_forall in Hb.
  apply shift_offset_mono; [exact Hlen|now apply Hb].
Qed.

Lemma add_start_boundary_sorted (b : list Z) :
  StronglySorted Z.lt b -> Forall (fun v => 0 <= v) b ->
  StronglySorted Z.lt (add_start_boundary b).
Proof.
  intros Hs Hnn. destruct b as [|b0 b']; simpl.
  - repeat constructor.
  - destruct (Z.eqb_spec b0 0) as [->|Hne]; [exact Hs|].
    constructor; [exact Hs|].
    pose proof (Forall_inv Hnn) as H0. cbv beta in H0.
    apply StronglySorted_inv in Hs. destruct Hs as [_ Hlt].
    constructor; [lia|].
    eapply Forall_impl; [|exact Hlt]. intros v Hv. cbv beta in *. lia.
Qed.

Lemma adapt_level_well_formed (level : list Z) :
  0 <= added_chars_len -> StronglySorted Z.lt level ->
  well_formed_level (add_start_boundary (scan level)).
Proof.
  intros Hlen Hs. split.
  - apply StronglySorted_Sorted, add_start_boundary_sorted.
    + now apply adapt_level_sorted.
    + apply Forall_forall. intros v Hv. now apply adapt_level_In in Hv.
  - destruct (add_start_boundary_head (scan level)) as [rest ->].
    reflexivity.
Qed.

End AdapterOrder.

(** The Adapter returns well-formed levels: from levels in strictly
    ascending order and a window with [added_chars_len >= 0] it makes levels
    in strictly ascending order that start with 0, so that its result can be
    adapted again. *)
Theorem adapt_levels_well_formed (boundaries : list (list Z))
  (chunk_char_offset chunk_len added_chars_len added_chars_end_pos : Z) :
  Forall ascending boundaries ->
  0 <= added_chars_len ->
  Forall well_formed_level
    (adapt_semantic_boundaries boundaries chunk_char_offset chunk_len
       added_chars_len added_chars_end_pos).
Proof.
  intros Hasc Hlen. unfold adapt_semantic_boundaries. rewrite map_map.
  apply Forall_map. eapply Forall_impl; [|exact Hasc].
  intros level Hl. cbv beta.
  apply adapt_level_well_formed; [exact Hlen|now apply ascending_strongly].
Qed.

Lemma adapt_levels_well_formed_witness :
  Forall well_formed_level
    (adapt_semantic_boundaries [[0; 10]; [0; 3; 5; 10]] 3 9 2 0).
Proof.
  apply adapt_levels_well_formed.
  - unfold ascending; repeat constructor.
  - lia.
Defined.

Lemma shift_offset_no_insertion (chunk_char_offset added_chars_end_pos b : Z) :
  shift_offset chunk_char_offset 0 added_chars_end_pos b
  = b - chunk_char_offset.
Proof.
  unfold shift_offset; cbv zeta.
  destruct (b - chunk_char_offset >=? added_chars_end_pos); lia.
Qed.

Lemma adapt_level_all_kept (chunk_len added_chars_end_pos : Z)
  (level : list Z) :
  Forall (fun b => 0 <= b <= chunk_len) level ->
  adapt_level 0 chunk_len 0 added_chars_end_pos level = level.
Proof.
  induction 1 as [|b rest Hb _ IH]; simpl; [reflexivity|].
  destruct (adapt_offset 0 chunk_len 0 added_chars_end_pos b)
    as [v| |] eqn:E.
  - apply adapt_offset_Keep in E. destruct E as [-> _].
    rewrite shift_offset_no_insertion, IH. f_equal. lia.
  - apply adapt_offset_Skip in E.
    rewrite shift_offset_no_insertion in E. lia.
  - apply adapt_offset_Break in E.
    rewrite shift_offset_no_insertion in E. lia.
Qed.

(** The window that is the whole text changes nothing: with offset 0 and no
    added characters, a hierarchy whose levels start with 0 and hold offsets
    of [0, chunk_len] only is returned as it is. *)
Theorem adapt_whole_text_window (boundaries : list (list Z))
  (chunk_len added_chars_end_pos : Z) :
  Forall (fun level => hd_error level = Some 0
                       /\ Forall (fun b => 0 <= b <= chunk_len) level)
    boundaries ->
  adapt_semantic_boundaries boundaries 0 chunk_len 0 added_chars_end_pos
  = boundaries.
Proof.
  intros H. unfold adapt_semantic_boundaries. rewrite map_map.
  induction H as [|level rest [Hhd Hr] _ IH]; simpl; [reflexivity|].
  rewrite IH, adapt_level_all_kept by exact Hr.
  destruct level as [|b0 level']; [discriminate|].
  simpl in Hhd. injection Hhd as ->. reflexivity.
Qed.

Lemma adapt_whole_text_window_witness :
  adapt_semantic_boundaries [[0; 10]; [0; 3; 5; 10]] 0 10 0 0
  = [[0; 10]; [0; 3; 5; 10]].
Proof.
  apply adapt_whole_text_window.
  repeat constructor; lia.
Defined.

(** No adapted offset other than the start boundary 0 lies in the interval
    from [added_chars_end_pos] to
    [added_chars_end_pos + added_chars_len]: the offsets from
    [added_chars_end_pos] on have been moved behind it. *)
Theorem adapt_leaves_gap (boundaries : list (list Z))
  (chunk_char_offset chunk_len added_chars_len added_chars_end_pos : Z) :
  Forall (Forall (fun v => v = 0 \/ v < added_chars_end_pos
                           \/ added_chars_end_pos + added_chars_len <= v))
    (adapt_semantic_boundaries boundaries chunk_char_offset chunk_len
       added_chars_len added_chars_end_pos).
Proof.
  unfold adapt_semantic_boundaries. rewrite map_map.
  apply Forall_map, Forall_forall. intros level _.
  apply Forall_forall. intros v Hv.
  apply add_start_boundary_In in Hv. destruct Hv as [->|Hv]; [now left|].
  right. apply adapt_level_In in Hv. destruct Hv as [[b [_ ->]] _].
  destruct (shift_offset_cases chunk_char_offset added_chars_len
              added_chars_end_pos b) as [[? ->]|[? ->]]; lia.
Qed.

Lemma in_window_spec (chunk_len v : Z) :
  (v >=? 0) && (v <=? chunk_len) = true <-> 0 <= v <= chunk_len.
Proof. rewrite andb_true_iff, Z.geb_leb, !Z.leb_le. tauto. Qed.

(** Without added characters, scanning the scan of a window for a window
    inside it is scanning for that window at once. *)
Lemma full_scan_of_full_scan (a b n1 n2 e1 e2 e3 : Z) (level : list Z) :
  0 <= b -> b + n2 <= n1 ->
  adapt_level_full_scan b n2 0 e2 (adapt_level_full_scan a n1 0 e1 level)
  = adapt_level_full_scan (a + b) n2 0 e3 level.
Proof.
  intros Hb Hn. unfold adapt_level_full_scan.
  induction level as [|x rest IH]; [reflexivity|].
  cbn [map filter]. rewrite !shift_offset_no_insertion.
  destruct ((x - a >=? 0) && (x - a <=? n1)) eqn:E1;
    destruct ((x - (a + b) >=? 0) && (x - (a + b) <=? n2)) eqn:E2.
  - cbn [map filter]. rewrite shift_offset_no_insertion.
    replace (x - a - b) with (x - (a + b)) by lia.
    rewrite E2, IH. reflexivity.
  - cbn [map filter]. rewrite shift_offset_no_insertion.
    replace (x - a - b) with (x - (a + b)) by lia.
    rewrite E2. exact IH.
  - apply in_window_spec in E2.
    assert (Hin : 0 <= x - a <= n1) by lia.
    apply in_window_spec in Hin. congruence.
  - exact IH.
Qed.

Lemma add_start_boundary_positive (b : list Z) :
  Forall (fun v => 0 < v) b -> add_start_boundary b = 0 :: b.
Proof.
  destruct b as [|b0 b']; [reflexivity|]. intros H.
  pose proof (Forall_inv H) as H0. cbv beta in H0. simpl.
  destruct (Z.eqb_spec b0 0); [lia|reflexivity].
Qed.

Lemma rewindow_level (a b n1 n2 e1 e2 e3 : Z) (level : list Z) :
  StronglySorted Z.lt level ->
  0 <= b -> 0 <= n2 -> b + n2 <= n1 ->
  add_start_boundary
    (adapt_level b n2 0 e2
       (add_start_boundary (adapt_level a n1 0 e1 level)))
  = add_start_boundary (adapt_level (a + b) n2 0 e3 level).
Proof.
  intros Hs Hb Hn2 Hn.
  pose proof (adapt_level_sorted a n1 0 e1 level ltac:(lia) Hs) as Hs1.
  assert (Hr1 : Forall (fun v => 0 <= v) (adapt_level a n1 0 e1 level)).
  { apply Forall_forall. intros v Hv. now apply adapt_level_In in Hv. }
  rewrite (adapt_level_full_scan_eq b n2 0 e2)
    by (try lia; now apply add_start_boundary_sorted).
  rewrite (adapt_level_full_scan_eq (a + b) n2 0 e3 level) by (try lia; auto).
  rewrite <- (full_scan_of_full_scan a b n1 n2 e1 e2 e3 level Hb Hn).
  rewrite <- (adapt_level_full_scan_eq a n1 0 e1 level) by (try lia; auto).
  destruct (adapt_level a n1 0 e1 level) as [|x t] eqn:El1.
  - unfold adapt_level_full_scan. cbn [add_start_boundary map filter].
    rewrite shift_offset_no_insertion.
    destruct ((0 - b >=? 0) && (0 - b <=? n2)) eqn:E; [|reflexivity].
    apply in_window_spec in E. assert (b = 0) as -> by lia. reflexivity.
  - cbn [add_start_boundary]. destruct (Z.eqb_spec x 0) as [->|Hx];
      [reflexivity|].
    unfold adapt_level_full_scan at 1. cbn [map filter].
    rewrite shift_offset_no_insertion.
    destruct ((0 - b >=? 0) && (0 - b <=? n2)) eqn:E; [|reflexivity].
    apply in_window_spec in E. assert (b = 0) as -> by lia.
    rewrite (add_start_boundary_positive
               (adapt_level_full_scan 0 n2 0 e2 (x :: t))).
    + reflexivity.
    + apply Forall_forall. intros v Hv. apply full_scan_In in Hv.
      destruct Hv as [[y [Hy ->]] _]. rewrite shift_offset_no_insertion.
      pose proof (Forall_inv Hr1) as Hx0. cbv beta in Hx0.
      apply StronglySorted_inv in Hs1. destruct Hs1 as [_ Hlt].
      rewrite Forall_forall in Hlt.
      destruct Hy as [<-|Hy]; [lia|]. specialize (Hlt y Hy). lia.
Qed.

(** Adapting twice is adapting once.  Without added characters, and for
    levels in strictly ascending order, the boundaries of a window inside a
    window ([b >= 0] characters into it and ending inside it) are the
    boundaries of that window in the text, at offset [a + b]. *)
Theorem adapt_window_in_window (boundaries : list (list Z))
  (a b n1 n2 e1 e2 e3 : Z) :
  Forall ascending boundaries ->
  0 <= b -> 0 <= n2 -> b + n2 <= n1 ->
  adapt_semantic_boundaries
    (adapt_semantic_boundaries boundaries a n1 0 e1) b n2 0 e2
  = adapt_semantic_boundaries boundaries (a + b) n2 0 e3.
Proof.
  intros Hasc Hb Hn2 Hn. unfold adapt_semantic_boundaries.
  rewrite !map_map. apply map_ext_in. intros level Hl.
  rewrite Forall_forall in Hasc.
  apply rewindow_level; try assumption.
  now apply ascending_strongly, Hasc.
Qed.

Lemma adapt_window_in_window_witness :
  adapt_semantic_boundaries
    (adapt_semantic_boundaries [[0; 10]; [0; 3; 5; 10]] 2 8 0 0) 1 5 0 0
  = adapt_semantic_boundaries [[0; 10]; [0; 3; 5; 10]] (2 + 1) 5 0 0.
Proof.
  apply adapt_window_in_window; try lia.
  unfold ascending; repeat constructor.
Defined.

(** ** [bisect.insort_left] on ascending lists *)

Lemma sorted_nth (a : list Z) :
  StronglySorted Z.lt a ->
  forall i j, (i < j < List.length a)%nat -> nth i a 0 < nth j a 0.
Proof.
  induction 1 as [|x l Hs IH Hx]; intros i j Hij; [simpl in Hij; lia|].
  destruct j as [|j]; [lia|]. simpl in Hij.
  destruct i as [|i]; simpl.
  - rewrite Forall_forall in Hx. apply Hx, nth_In. lia.
  - apply IH. lia.
Qed.

(** On an ascending list [bisect_left] finds the place of [x]: the offsets
    before it are smaller than [x], the offsets from it on are not. *)
Lemma bisect_left_loop_spec (a : list Z) (x : Z) :
  StronglySorted Z.lt a ->
  forall fuel lo hi,
    (lo <= hi <= List.length a)%nat ->
    (hi - lo <= fuel)%nat ->
    (forall i, (i < lo)%nat -> nth i a 0 < x) ->
    (forall i, (hi <= i < List.length a)%nat -> x <= nth i a 0) ->
    (forall i, (i < bisect_left_loop fuel a x lo hi)%nat -> nth i a 0 < x)
    /\ (forall i,
          (bisect_left_loop fuel a x lo hi <= i < List.length a)%nat ->
          x <= nth i a 0).
Proof.
  intros Hs. induction fuel as [|fuel IH]; intros lo hi Hb Hf Hlo Hhi.
  - simpl. assert (lo = hi) as -> by lia. auto.
  - rewrite bisect_left_loop_S.
    destruct (Nat.ltb_spec lo hi) as [Hlt|Hge].
    + pose proof (midpoint_bounds lo hi Hlt) as Hmid.
      destruct (Z.ltb_spec (nth ((lo + hi) / 2) a 0) x) as [Hm|Hm].
      * apply IH; [lia|lia| |exact Hhi].
        intros i Hi.
        destruct (Nat.eq_dec i ((lo + hi) / 2)) as [->|Hne]; [exact Hm|].
        pose proof (sorted_nth a Hs i ((lo + hi) / 2) ltac:(lia)). lia.
      * apply IH; [lia|lia|exact Hlo|].
        intros i Hi.
        destruct (Nat.eq_dec i ((lo + hi) / 2)) as [->|Hne]; [exact Hm|].
        pose proof (sorted_nth a Hs ((lo + hi) / 2) i ltac:(lia)). lia.
    + assert (lo = hi) as -> by lia. auto.
Qed.

Lemma bisect_left_spec (a : list Z) (x : Z) :
  StronglySorted Z.lt a ->
  Forall (fun y => y < x) (firstn (bisect_left a x) a)
  /\ Forall (fun y => x <= y) (skipn (bisect_left a x) a).
Proof.
  intros Hs.
  destruct (bisect_left_loop_spec a x Hs (List.length a) 0 (List.length a))
    as [Hbefore Hafter]; try lia.
  fold (bisect_left a x) in Hbefore, Hafter.
  pose proof (bisect_left_le_length a x) as Hle.
  split; apply Forall_forall; intros y Hy;
    destruct (In_nth _ _ 0 Hy) as [i [Hi <-]].
  - rewrite length_firstn in Hi. rewrite nth_firstn.
    destruct (Nat.ltb_spec i (bisect_left a x)); [|lia].
    apply Hbefore. lia.
  - rewrite length_skipn in Hi. rewrite nth_skipn. apply Hafter. lia.
Qed.

Lemma sorted_insert_between (l1 l2 : list Z) (x : Z) :
  StronglySorted Z.lt (l1 ++ l2) ->
  Forall (fun y => y < x) l1 -> Forall (fun y => x < y) l2 ->
  StronglySorted Z.lt (l1 ++ x :: l2).
Proof.
  induction l1 as [|y l1 IH]; intros Hs H1 H2; simpl in *.
  - now constructor.
  - apply StronglySorted_inv in Hs. destruct Hs as [Hs Hy].
    apply Forall_app in Hy. destruct Hy as [Hy1 Hy2].
    constructor.
    + apply IH; [exact Hs|exact (Forall_inv_tail H1)|exact H2].
    + apply Forall_app. split; [exact Hy1|].
      constructor; [exact (Forall_inv H1)|exact Hy2].
Qed.

(** [insort_left] keeps a list without [x] in strictly ascending order. *)
Lemma insort_left_sorted (a : list Z) (x : Z) :
  StronglySorted Z.lt a -> ~ In x a ->
  StronglySorted Z.lt (insort_left a x).
Proof.
  intros Hs Hx. unfold insort_left, list_insert.
  destruct (bisect_left_spec a x Hs) as [H1 H2].
  apply sorted_insert_between.
  - now rewrite firstn_skipn.
  - exact H1.
  - apply Forall_forall. intros y Hy.
    rewrite Forall_forall in H2. specialize (H2 y Hy). cbv beta in H2.
    assert (y <> x).
    { intros ->. apply Hx. rewrite <- (firstn_skipn (bisect_left a x) a).
      apply in_app_iff. now right. }
    lia.
Qed.

Lemma sorted_head_zero (l : list Z) :
  StronglySorted Z.lt l -> In 0 l -> Forall (fun v => 0 <= v) l ->
  hd_error l = Some 0.
Proof.
  intros Hs H0 Hnn. destruct l as [|y l]; [contradiction|].
  destruct H0 as [->|H0]; [reflexivity|].
  apply StronglySorted_inv in Hs. destruct Hs as [_ Hy].
  rewrite Forall_forall in Hy. specialize (Hy 0 H0).
  pose proof (Forall_inv Hnn) as Hy0. cbv beta in Hy0. lia.
Qed.

Lemma well_formed_level_nonneg (l : list Z) :
  well_formed_level l -> Forall (fun v => 0 <= v) l.
Proof.
  intros [Hs Hhd]. apply ascending_strongly in Hs.
  destruct l as [|y l]; [discriminate|]. simpl in Hhd. injection Hhd as ->.
  apply StronglySorted_inv in Hs. destruct Hs as [_ Hy].
  constructor; [lia|]. eapply Forall_impl; [|exact Hy].
  intros v Hv. cbv beta in Hv. lia.
Qed.

Lemma well_formed_level_In_zero (l : list Z) : well_formed_level l -> In 0 l.
Proof.
  intros [_ Hhd]. destruct l; [discriminate|]. simpl in Hhd.
  injection Hhd as ->. now left.
Qed.

(** Inserting a missing offset of one well-formed level into another leaves
    the latter well-formed. *)
Lemma insert_missing_well_formed (rj : list_id) (h : store) (b : Z) :
  0 <= b -> well_formed_level (h rj) ->
  well_formed_level (insert_missing rj h b rj).
Proof.
  intros Hb Hwf. unfold insert_missing.
  destruct (contains (h rj) b) eqn:E; [exact Hwf|].
  rewrite store_set_same.
  assert (Hnotin : ~ In b (h rj)).
  { intros Hin. apply contains_In in Hin. congruence. }
  assert (Hs : StronglySorted Z.lt (insort_left (h rj) b)).
  { apply insort_left_sorted; [apply ascending_strongly, Hwf|exact Hnotin]. }
  split; [now apply StronglySorted_Sorted|].
  apply sorted_head_zero; [exact Hs| |].
  - apply insort_left_In. right. now apply well_formed_level_In_zero.
  - apply Forall_forall. intros v Hv. apply insort_left_In in Hv.
    destruct Hv as [->|Hv]; [exact Hb|].
    pose proof (well_formed_level_nonneg _ Hwf) as Hnn.
    rewrite Forall_forall in Hnn. now apply Hnn.
Qed.

Lemma fold_insert_missing_well_formed (rj : list_id) (l : list Z) :
  Forall (fun b => 0 <= b) l ->
  forall h,
    well_formed_level (h rj) ->
    well_formed_level (fold_left (insert_missing rj) l h rj).
Proof.
  induction 1 as [|b l Hb _ IH]; intros h Hwf; simpl; [exact Hwf|].
  apply IH. now apply insert_missing_well_formed.
Qed.

Section WellFormedStore.

(** A set of lists that holds the levels of the hierarchy. *)
Variable levels : list_id -> Prop.

Lemma propagate_well_formed (h : store) (ri rj : list_id) :
  levels ri -> levels rj ->
  (forall r, levels r -> well_formed_level (h r)) ->
  forall r, levels r -> well_formed_level (propagate h ri rj r).
Proof.
  intros Hi Hj Hwf r Hr.
  destruct (list_id_eqb_spec r rj) as [->|Hne].
  - apply fold_insert_missing_well_formed; [|now apply Hwf].
    now apply well_formed_level_nonneg, Hwf.
  - rewrite propagate_other by exact Hne. now apply Hwf.
Qed.

Lemma inner_loop_well_formed (ri : list_id) (finer : list list_id) :
  levels ri -> (forall r, In r finer -> levels r) ->
  forall h,
    (forall r, levels r -> well_formed_level (h r)) ->
    forall r, levels r ->
      well_formed_level
        (fold_left (fun h rj => propagate h ri rj) finer h r).
Proof.
  intros Hi. induction finer as [|rj finer IH]; intros Hf h Hwf; simpl;
    [exact Hwf|].
  apply IH; [intros r Hr; apply Hf; now right|].
  apply propagate_well_formed; [exact Hi|apply Hf; now left|exact Hwf].
Qed.

Lemma enforce_from_well_formed (boundaries : list list_id) :
  (forall r, In r boundaries -> levels r) ->
  forall h,
    (forall r, levels r -> well_formed_level (h r)) ->
    forall r, levels r -> well_formed_level (enforce_from boundaries h r).
Proof.
  induction boundaries as [|ri finer IH]; intros Hb h Hwf; simpl;
    [exact Hwf|].
  apply IH; [intros r Hr; apply Hb; now right|].
  apply inner_loop_well_formed;
    [apply Hb; now left|intros r Hr; apply Hb; now right|exact Hwf].
Qed.

End WellFormedStore.

(** ** More on the Boundary Extractor *)

Lemma collect_levels_length (text : string) (chunk_types : list string) :
  forall k h refs h',
    collect_levels text chunk_types k h = Ok (refs, h') ->
    List.length refs = List.length chunk_types.
Proof.
  induction chunk_types as [|ct rest IH]; intros k h refs h' Hc.
  - simpl in Hc. now injection Hc as <- _.
  - apply collect_levels_cons_inv in Hc.
    destruct Hc as [r0 [h1 [rs [_ [Hc ->]]]]]. simpl.
    now rewrite (IH _ _ _ _ Hc).
Qed.

Lemma collect_levels_known (text : string) (chunk_types : list string) :
  (forall ct, In ct chunk_types -> In ct known_chunk_types) ->
  forall k h,
  exists refs h', collect_levels text chunk_types k h = Ok (refs, h').
Proof.
  induction chunk_types as [|ct rest IH]; intros Hk k h.
  - now exists [], h.
  - destruct (chunk_level_known text k ct h (Hk ct (or_introl eq_refl)))
      as [r [h1 Hl]].
    destruct (IH (fun c Hc => Hk c (or_intror Hc)) (S k) h1)
      as [rs [h2 Hc]].
    exists (r :: rs), h2. cbn [collect_levels]. rewrite Hl. cbn [bind].
    rewrite Hc. reflexivity.
Qed.

Lemma collect_levels_Ok_known (text : string) (chunk_types : list string)
  (k : nat) (h h' : store) (refs : list list_id) :
  collect_levels text chunk_types k h = Ok (refs, h') ->
  forall ct, In ct chunk_types -> In ct known_chunk_types.
Proof.
  intros Hc ct Hct.
  destruct (known_chunk_types_dec ct) as [Hk|Hk]; [exact Hk|].
  destruct (collect_levels_unknown text chunk_types
              (ex_intro _ ct (conj Hct Hk)) k h) as [name [_ [_ E]]].
  congruence.
Qed.

Lemma collect_levels_first_unknown (text : string) (known : list string)
  (name : string) (rest : list string) :
  (forall ct, In ct known -> In ct known_chunk_types) ->
  ~ In name known_chunk_types ->
  forall k h,
    collect_levels text (known ++ name :: rest) k h
    = Raise (ValueError ("Unknown chunk type: " ++ name)).
Proof.
  intros Hk Hn. induction known as [|ct known IH]; intros k h.
  - cbn [app collect_levels]. now rewrite chunk_level_unknown.
  - cbn [app collect_levels].
    destruct (chunk_level_known text k ct h (Hk ct (or_introl eq_refl)))
      as [r [h1 ->]].
    cbn [bind]. rewrite IH; [reflexivity|].
    intros c Hc. apply Hk. now right.
Qed.

Lemma get_semantic_bounderies_starts (doc : document)
  (chunk_types sentence_boundary_chars token_boundary_chars : list string)
  (sentence_start token_start : list Z) :
  document_starts doc sentence_boundary_chars token_boundary_chars
    sentence_start token_start ->
  get_semantic_bounderies doc chunk_types sentence_boundary_chars
    token_boundary_chars
  = ('(boundaries, h) <-
       collect_levels (document_text doc) chunk_types 0
         (init_store sentence_start token_start) ;;
     Ok (map (enforce_subsets boundaries h) boundaries)).
Proof.
  unfold get_semantic_bounderies, document_starts.
  destruct doc as [text|d]; simpl.
  - intros [-> ->]. reflexivity.
  - intros [-> ->]. reflexivity.
Qed.

Lemma get_semantic_bounderies_inv_starts (doc : document)
  (chunk_types sentence_boundary_chars token_boundary_chars : list string)
  (levels : list (list Z)) :
  get_semantic_bounderies doc chunk_types sentence_boundary_chars
    token_boundary_chars = Ok levels ->
  exists sentence_start token_start boundaries h,
    document_starts doc sentence_boundary_chars token_boundary_chars
      sentence_start token_start
    /\ collect_levels (document_text doc) chunk_types 0
         (init_store sentence_start token_start) = Ok (boundaries, h)
    /\ levels = map (enforce_subsets boundaries h) boundaries.
Proof.
  intros H.
  assert (Hst : exists ss ts,
             document_starts doc sentence_boundary_chars
               token_boundary_chars ss ts).
  { unfold get_semantic_bounderies in H. destruct doc as [text|d]; simpl.
    - destruct (get_split_offsets text sentence_boundary_chars) as [ss|e];
        [|discriminate].
      destruct (get_split_offsets text token_boundary_chars) as [ts|e];
        [|discriminate].
      now exists ss, ts.
    - now eexists _, _. }
  destruct Hst as [ss [ts Hst]].
  rewrite (get_semantic_bounderies_starts _ _ _ _ _ _ Hst) in H.
  destruct (collect_levels (document_text doc) chunk_types 0
              (init_store ss ts)) as [[boundaries h]|e] eqn:E;
    [|discriminate].
  simpl in H. injection H as <-.
  now exists ss, ts, boundaries, h.
Qed.

(** The Extractor returns one level for each requested name. *)
Theorem extractor_level_count (doc : document)
  (chunk_types sentence_boundary_chars token_boundary_chars : list string)
  (levels : list (list Z)) :
  get_semantic_bounderies doc chunk_types sentence_boundary_chars
    token_boundary_chars = Ok levels ->
  List.length levels = List.length chunk_types.
Proof.
  intros H. apply get_semantic_bounderies_inv in H.
  destruct H as [ss [ts [boundaries [h [Hc ->]]]]].
  rewrite length_map. exact (collect_levels_length _ _ _ _ _ _ Hc).
Qed.

Lemma extractor_level_count_witness :
  List.length [[0; 2]; [0]; [0; 2]; [0; 2]] = 4%nat.
Proof.
  exact (extractor_level_count (PlainText "a b")
           ["sentences"; "paragraphs"; "tokens"; "sentences"]
           default_sentence_boundary_chars default_token_boundary_chars
           _ eq_refl).
Defined.

(** When the Extractor returns a hierarchy: exactly when every requested
    name is one of "paragraphs", "sentences", "subparts", "tokens" and, for
    a plain text, both delimiter lists are non-empty with delimiters of one
    length, whether or not sentences or tokens are requested. *)
Theorem extractor_returns_iff (doc : document)
  (chunk_types sentence_boundary_chars token_boundary_chars : list string) :
  (exists levels,
     get_semantic_bounderies doc chunk_types sentence_boundary_chars
       token_boundary_chars = Ok levels)
  <-> delimiters_fit doc sentence_boundary_chars token_boundary_chars
      /\ forall ct, In ct chunk_types -> In ct known_chunk_types.
Proof.
  split.
  - intros [levels H]. apply get_semantic_bounderies_inv_starts in H.
    destruct H as [ss [ts [boundaries [h [Hst [Hc _]]]]]]. split.
    + destruct doc as [text|d]; simpl in *; [|exact I].
      destruct Hst as [Hs Ht].
      apply get_split_offsets_Ok_inv in Hs.
      apply get_split_offsets_Ok_inv in Ht. tauto.
    + exact (collect_levels_Ok_known _ _ _ _ _ _ Hc).
  - intros [Hfit Hk].
    destruct (extractor_prologue doc chunk_types _ _ Hfit) as [ss [ts ->]].
    destruct (collect_levels_known (document_text doc) chunk_types Hk 0%nat
                (init_store ss ts)) as [refs [h' ->]].
    eexists. reflexivity.
Qed.

(** The name in the [ValueError] is the first requested name that is not
    known; the names behind it are not looked at. *)
Theorem extractor_reports_first_unknown (doc : document)
  (known : list string) (name : string) (rest : list string)
  (sentence_boundary_chars token_boundary_chars : list string) :
  delimiters_fit doc sentence_boundary_chars token_boundary_chars ->
  (forall ct, In ct known -> In ct known_chunk_types) ->
  ~ In name known_chunk_types ->
  get_semantic_bounderies doc (known ++ name :: rest)
    sentence_boundary_chars token_boundary_chars
  = Raise (ValueError ("Unknown chunk type: " ++ name)).
Proof.
  intros Hfit Hk Hn.
  destruct (extractor_prologue doc (known ++ name :: rest) _ _ Hfit)
    as [ss [ts ->]].
  now rewrite collect_levels_first_unknown.
Qed.

Lemma default_delimiters_fit (doc : document) :
  delimiters_fit doc default_sentence_boundary_chars
    default_token_boundary_chars.
Proof.
  destruct doc; simpl; [|exact I].
  split; (split; [discriminate|]);
    intros d1 d2 H1 H2; simpl in H1, H2;
    repeat match goal with
           | H : _ \/ _ |- _ => destruct H as [<-|H]
           | H : False |- _ => contradiction
           end; reflexivity.
Qed.

Lemma extractor_reports_first_unknown_witness :
  get_semantic_bounderies (PlainText "a b")
    (["paragraphs"; "tokens"] ++ "lines" :: ["words"; "sentences"])
    default_sentence_boundary_chars default_token_boundary_chars
  = Raise (ValueError "Unknown chunk type: lines").
Proof.
  apply (extractor_reports_first_unknown (PlainText "a b")
           ["paragraphs"; "tokens"] "lines" ["words"; "sentences"]).
  - apply default_delimiters_fit.
  - intros ct Hct. unfold known_chunk_types. simpl in *. tauto.
  - unfold known_chunk_types. simpl. intuition discriminate.
Defined.

Lemma get_split_offsets_error (text : string) (delimiters : list string)
  (e : error) :
  get_split_offsets text delimiters = Raise e ->
  e = IndexError \/ e = AssertionError.
Proof.
  unfold get_split_offsets. destruct delimiters as [|d0 rest].
  - intros [= <-]. now left.
  - destruct (forallb _ rest); [discriminate|]. intros [= <-]. now right.
Qed.

(** For a plain text the delimiter lists are checked before the requested
    names are looked at: when one of them is empty or mixes lengths, the
    Extractor raises [IndexError] or [AssertionError] for every request,
    also for one that asks for neither sentences nor tokens and for one
    with an unknown name. *)
Theorem extractor_checks_delimiters_first (text : string)
  (chunk_types sentence_boundary_chars token_boundary_chars : list string) :
  ~ (uniform_delimiters sentence_boundary_chars
     /\ uniform_delimiters token_boundary_chars) ->
  exists e,
    get_semantic_bounderies (PlainText text) chunk_types
      sentence_boundary_chars token_boundary_chars = Raise e
    /\ (e = IndexError \/ e = AssertionError).
Proof.
  intros Hnot. unfold get_semantic_bounderies.
  destruct (get_split_offsets text sentence_boundary_chars) as [ss|e] eqn:Es.
  - destruct (get_split_offsets text token_boundary_chars) as [ts|e] eqn:Et.
    + exfalso. apply Hnot.
      apply get_split_offsets_Ok_inv in Es.
      apply get_split_offsets_Ok_inv in Et. tauto.
    + exists e. split; [reflexivity|].
      exact (get_split_offsets_error _ _ _ Et).
  - exists e. split; [reflexivity|].
    exact (get_split_offsets_error _ _ _ Es).
Qed.

Lemma extractor_checks_delimiters_first_witness :
  exists e,
    get_semantic_bounderies (PlainText "a b") ["paragraphs"]
      default_sentence_boundary_chars [] = Raise e
    /\ (e = IndexError \/ e = AssertionError).
Proof.
  apply extractor_checks_delimiters_first.
  intros [_ [Hne _]]. now apply Hne.
Defined.

(** What the first loop leaves in the store: at every level the offsets of
    [raw_level]. *)
Lemma collect_levels_raw (text : string) (sentence_start token_start : list Z)
  (chunk_types : list string) :
  forall k h refs h',
    h sentence_start_chars = sentence_start ->
    h token_start_chars = token_start ->
    collect_levels text chunk_types k h = Ok (refs, h') ->
    forall i ct r,
      nth_error chunk_types i = Some ct ->
      nth_error refs i = Some r ->
      raw_level text sentence_start token_start ct = Ok (h' r).
Proof.
  induction chunk_types as [|ct0 rest IH];
    intros k h refs h' Hs Ht Hc i ct r Hct Hr.
  - destruct i; discriminate.
  - apply collect_levels_cons_inv in Hc.
    destruct Hc as [r0 [h1 [rs [Hl [Hc ->]]]]].
    apply chunk_level_inv in Hl.
    assert (Hframe : h1 sentence_start_chars = sentence_start
                     /\ h1 token_start_chars = token_start).
    { destruct Hl as [[_ [-> [o [_ ->]]]]|[[_ [_ ->]]|[[_ [-> [o [_ ->]]]]
                     |[_ [_ ->]]]]]; auto;
        rewrite !store_set_other by discriminate; auto. }
    destruct i as [|i]; simpl in Hct, Hr.
    + injection Hct as ->. injection Hr as ->.
      destruct Hl as [[-> [-> [o [Ho ->]]]]|[[-> [-> ->]]
                     |[[-> [-> [o [Ho ->]]]]|[-> [-> ->]]]]].
      * rewrite (collect_levels_frame _ _ _ _ _ _ Hc) by (simpl; lia).
        rewrite store_set_same. exact Ho.
      * rewrite (collect_levels_frame _ _ _ _ _ _ Hc) by exact I.
        unfold raw_level. simpl. now rewrite Hs.
      * rewrite (collect_levels_frame _ _ _ _ _ _ Hc) by (simpl; lia).
        rewrite store_set_same. exact Ho.
      * rewrite (collect_levels_frame _ _ _ _ _ _ Hc) by exact I.
        unfold raw_level. simpl. now rewrite Ht.
    + destruct Hframe as [Hs1 Ht1].
      exact (IH _ _ _ _ Hs1 Ht1 Hc i ct r Hct Hr).
Qed.

Lemma paragraph_boundary_chars_proper :
  proper_delimiters paragraph_boundary_chars.
Proof. intros d [<-|[]]. discriminate. Qed.

Lemma subpart_boundary_chars_proper :
  proper_delimiters subpart_boundary_chars.
Proof. intros d [<-|[<-|[<-|[]]]]; discriminate. Qed.

Lemma raw_level_well_formed (text : string)
  (sentence_start token_start : list Z) (chunk_type : string)
  (level : list Z) :
  well_formed_level sentence_start -> well_formed_level token_start ->
  raw_level text sentence_start token_start chunk_type = Ok level ->
  well_formed_level level.
Proof.
  intros Hs Ht. unfold raw_level.
  destruct (String.eqb chunk_type "paragraphs").
  { apply split_offsets_well_formed, paragraph_boundary_chars_proper. }
  destruct (String.eqb chunk_type "sentences"); [now intros [= <-]|].
  destruct (String.eqb chunk_type "subparts").
  { apply split_offsets_well_formed, subpart_boundary_chars_proper. }
  destruct (String.eqb chunk_type "tokens"); [now intros [= <-]|].
  discriminate.
Qed.

Lemma document_starts_well_formed (doc : document)
  (sentence_boundary_chars token_boundary_chars : list string)
  (sentence_start token_start : list Z) :
  well_formed_document doc sentence_boundary_chars token_boundary_chars ->
  document_starts doc sentence_boundary_chars token_boundary_chars
    sentence_start token_start ->
  well_formed_level sentence_start /\ well_formed_level token_start.
Proof.
  destruct doc as [text|d]; simpl.
  - intros [Hps Hpt] [Hs Ht]. split.
    + exact (split_offsets_well_formed _ _ _ Hps Hs).
    + exact (split_offsets_well_formed _ _ _ Hpt Ht).
  - intros [Hs Ht] [-> ->]. now split.
Qed.

(** The two loops of the Extractor make well-formed levels from well-formed
    sentence and token offsets. *)
Lemma collected_levels_well_formed (text : string)
  (sentence_start token_start : list Z) (chunk_types : list string)
  (boundaries : list list_id) (h : store) :
  well_formed_level sentence_start -> well_formed_level token_start ->
  collect_levels text chunk_types 0 (init_store sentence_start token_start)
  = Ok (boundaries, h) ->
  Forall well_formed_level (map (enforce_subsets boundaries h) boundaries).
Proof.
  intros Hs Ht Hc. rewrite enforce_subsets_from.
  apply Forall_map, Forall_forall. intros r Hr.
  apply (enforce_from_well_formed (fun r => In r boundaries));
    [auto| |exact Hr].
  intros r' Hr'. destruct (In_nth_error _ _ Hr') as [i Hi].
  assert (Hlt : (i < List.length chunk_types)%nat).
  { rewrite <- (collect_levels_length _ _ _ _ _ _ Hc).
    apply nth_error_Some. congruence. }
  destruct (nth_error chunk_types i) as [ct|] eqn:Hct;
    [|apply nth_error_None in Hct; lia].
  apply (raw_level_well_formed text sentence_start token_start ct);
    [exact Hs|exact Ht|].
  exact (collect_levels_raw text sentence_start token_start chunk_types
           0%nat (init_store sentence_start token_start) boundaries h
           eq_refl eq_refl Hc i ct r' Hct Hi).
Qed.

(** The levels of the Extractor are well-formed: in strictly ascending
    order and starting with 0, for a plain text split on delimiters that are
    not empty strings and for an annotation whose sentence and token starts
    are ascending from 0; also when a name is requested twice. *)
Theorem extractor_levels_well_formed (doc : document)
  (chunk_types sentence_boundary_chars token_boundary_chars : list string)
  (levels : list (list Z)) :
  well_formed_document doc sentence_boundary_chars token_boundary_chars ->
  get_semantic_bounderies doc chunk_types sentence_boundary_chars
    token_boundary_chars = Ok levels ->
  Forall well_formed_level levels.
Proof.
  intros Hwf H. apply get_semantic_bounderies_inv_starts in H.
  destruct H as [ss [ts [boundaries [h [Hst [Hc ->]]]]]].
  destruct (document_starts_well_formed _ _ _ _ _ Hwf Hst) as [Hs Ht].
  exact (collected_levels_well_formed _ _ _ _ _ _ Hs Ht Hc).
Qed.

Lemma default_delimiters_proper (text : string) :
  well_formed_document (PlainText text) default_sentence_boundary_chars
    default_token_boundary_chars.
Proof.
  split; intros d Hd; simpl in Hd;
    repeat match goal with
           | H : _ \/ _ |- _ => destruct H as [<-|H]
           | H : False |- _ => contradiction
           end; discriminate.
Qed.

Lemma extractor_levels_well_formed_witness :
  Forall well_formed_level
    [[0]; [0; 15; 29]; [0; 10; 15; 24; 29]; [0; 3; 10; 15; 19; 24; 29]].
Proof.
  apply (extractor_levels_well_formed
           (PlainText "Hi there, you. How are: you? Fine")
           default_chunk_types default_sentence_boundary_chars
           default_token_boundary_chars).
  - apply default_delimiters_proper.
  - reflexivity.
Defined.

Lemma list_id_eq_dec (r1 r2 : list_id) : {r1 = r2} + {r1 <> r2}.
Proof.
  destruct (list_id_eqb_spec r1 r2); [now left|now right].
Defined.

(** What the inner loop writes into a finer level: the offsets of [ri]. *)
Lemma inner_loop_In (ri : list_id) (x : Z) (finer : list list_id) :
  ~ In ri finer ->
  forall h rj,
    In rj finer ->
    (In x (fold_left (fun h rj => propagate h ri rj) finer h rj)
     <-> In x (h rj) \/ In x (h ri)).
Proof.
  induction finer as [|r0 finer IH]; intros Hri h rj Hrj; [contradiction|].
  cbn [fold_left].
  assert (Hne : ri <> r0) by (intros ->; apply Hri; now left).
  assert (Hri' : ~ In ri finer) by (intros Hin; apply Hri; now right).
  assert (Hstep : In x (propagate h ri r0 rj) \/ In x (h ri)
                  <-> In x (h rj) \/ In x (h ri)).
  { destruct (list_id_eq_dec rj r0) as [->|Hrj0].
    - rewrite propagate_In. tauto.
    - now rewrite propagate_other. }
  destruct (in_dec list_id_eq_dec rj finer) as [Hin|Hnin].
  - rewrite (IH Hri' _ rj Hin).
    rewrite (propagate_other h ri r0 ri Hne). exact Hstep.
  - rewrite inner_loop_other by exact Hnin.
    destruct Hrj as [<-|Hrj]; [|contradiction].
    apply propagate_In.
Qed.

(** When no list stands at two levels, the second loop makes each level the
    union of the levels up to it. *)
Lemma enforce_from_In (x : Z) (boundaries : list list_id) :
  NoDup boundaries ->
  forall h j rj,
    nth_error boundaries j = Some rj ->
    (In x (enforce_from boundaries h rj)
     <-> exists i ri,
           (i <= j)%nat /\ nth_error boundaries i = Some ri /\ In x (h ri)).
Proof.
  induction 1 as [|r0 finer Hr0 Hnd IH]; intros h j rj Hj.
  - destruct j; discriminate.
  - cbn [enforce_from]. destruct j as [|j]; simpl in Hj.
    + injection Hj as <-.
      rewrite enforce_from_other, inner_loop_other by exact Hr0. split.
      * intros Hx. exists 0%nat, r0. auto.
      * intros [i [ri [Hi [Hn Hx]]]]. assert (i = 0)%nat as -> by lia.
        simpl in Hn. now injection Hn as <-.
    + rewrite (IH _ j rj Hj). split.
      * intros [i [ri [Hi [Hn Hx]]]].
        apply (inner_loop_In r0 x finer Hr0 h ri (nth_error_In _ _ Hn))
          in Hx.
        destruct Hx as [Hx|Hx].
        -- exists (S i), ri. split; [lia|]. auto.
        -- exists 0%nat, r0. split; [lia|]. auto.
      * intros [i [ri [Hi [Hn Hx]]]]. destruct i as [|i]; simpl in Hn.
        -- injection Hn as <-. exists j, rj. split; [lia|].
           split; [exact Hj|].
           apply (inner_loop_In r0 x finer Hr0 h rj (nth_error_In _ _ Hj)).
           now right.
        -- exists i, ri. split; [lia|]. split; [exact Hn|].
           apply (inner_loop_In r0 x finer Hr0 h ri (nth_error_In _ _ Hn)).
           now left.
Qed.

(** What the Extractor returns, offset by offset.  When "sentences" and
    "tokens" are each requested at most once, an offset is in level [j]
    exactly when one of the levels 0 to [j] has it before the second loop;
    the coarsest level is returned as the first loop made it. *)
Theorem extractor_level_members (doc : document)
  (chunk_types sentence_boundary_chars token_boundary_chars : list string)
  (levels : list (list Z)) :
  (count_occ string_dec chunk_types "sentences" <= 1)%nat ->
  (count_occ string_dec chunk_types "tokens" <= 1)%nat ->
  get_semantic_bounderies doc chunk_types sentence_boundary_chars
    token_boundary_chars = Ok levels ->
  exists sentence_start token_start,
    document_starts doc sentence_boundary_chars token_boundary_chars
      sentence_start token_start
    /\ (forall j level x,
          nth_error levels j = Some level ->
          (In x level
           <-> exists i ct raw,
                 (i <= j)%nat /\ nth_error chunk_types i = Some ct
                 /\ raw_level (document_text doc) sentence_start token_start
                      ct = Ok raw
                 /\ In x raw))
    /\ (forall ct level,
          nth_error chunk_types 0 = Some ct ->
          nth_error levels 0 = Some level ->
          raw_level (document_text doc) sentence_start token_start ct
          = Ok level).
Proof.
  intros Hcs Hct H. apply get_semantic_bounderies_inv_starts in H.
  destruct H as [ss [ts [boundaries [h [Hst [Hc ->]]]]]].
  exists ss, ts. split; [exact Hst|].
  pose proof (collect_levels_NoDup _ _ Hcs Hct _ _ _ _ Hc) as Hnd.
  pose proof (collect_levels_length _ _ _ _ _ _ Hc) as Hlen.
  pose proof (collect_levels_raw (document_text doc) ss ts chunk_types
                0%nat (init_store ss ts) boundaries h eq_refl eq_refl Hc)
    as Hraw.
  split.
  - intros j level x Hj. rewrite nth_error_map in Hj.
    destruct (nth_error boundaries j) as [rj|] eqn:Hrj; [|discriminate].
    simpl in Hj. injection Hj as <-.
    rewrite enforce_subsets_from, (enforce_from_In x _ Hnd h j rj Hrj).
    split.
    + intros [i [ri [Hi [Hn Hx]]]].
      destruct (nth_error chunk_types i) as [ct|] eqn:Hcti.
      * exists i, ct, (h ri). split; [exact Hi|]. split; [exact Hcti|].
        split; [exact (Hraw i ct ri Hcti Hn)|exact Hx].
      * apply nth_error_None in Hcti.
        assert (i < List.length boundaries)%nat
          by (apply nth_error_Some; congruence).
        lia.
    + intros [i [ct [raw [Hi [Hcti [Hr Hx]]]]]].
      destruct (nth_error boundaries i) as [ri|] eqn:Hn.
      * exists i, ri. split; [exact Hi|]. split; [exact Hn|].
        rewrite (Hraw i ct ri Hcti Hn) in Hr. now injection Hr as ->.
      * apply nth_error_None in Hn.
        assert (i < List.length chunk_types)%nat
          by (apply nth_error_Some; congruence).
        lia.
  - intros ct level Hct0 Hl0. rewrite nth_error_map in Hl0.
    destruct boundaries as [|r0 finer]; [discriminate|].
    simpl in Hl0. injection Hl0 as <-.
    rewrite (Hraw 0%nat ct r0 Hct0 eq_refl). f_equal.
    rewrite enforce_subsets_from. cbn [enforce_from].
    apply NoDup_cons_iff in Hnd. destruct Hnd as [Hr0 _].
    now rewrite enforce_from_other, inner_loop_other.
Qed.

Lemma extractor_level_members_witness :
  exists sentence_start token_start,
    document_starts (PlainText "Hi there, you. How are: you? Fine")
      default_sentence_boundary_chars default_token_boundary_chars
      sentence_start token_start
    /\ raw_level "Hi there, you. How are: you? Fine" sentence_start
         token_start "paragraphs" = Ok [0].
Proof.
  destruct (extractor_level_members
              (PlainText "Hi there, you. How are: you? Fine")
              default_chunk_types default_sentence_boundary_chars
              default_token_boundary_chars
              [[0]; [0; 15; 29]; [0; 10; 15; 24; 29];
               [0; 3; 10; 15; 19; 24; 29]])
    as [ss [ts [Hst [_ H0]]]].
  - simpl. lia.
  - simpl. lia.
  - reflexivity.
  - exists ss, ts. split; [exact Hst|].
    apply H0; reflexivity.
Defined.

(** ** The Extractor followed by the Adapter *)

Lemma adapt_keeps_subset_invariant (boundaries : list (list Z))
  (chunk_char_offset chunk_len added_chars_len added_chars_end_pos : Z) :
  Forall ascending boundaries ->
  subset_invariant boundaries ->
  0 <= added_chars_len ->
  subset_invariant
    (adapt_semantic_boundaries boundaries chunk_char_offset chunk_len
       added_chars_len added_chars_end_pos).
Proof.
  intros Hasc Hsub Hlen i j oi oj Hlt Hi Hj b Hb.
  apply adapt_semantic_boundaries_nth in Hi. destruct Hi as [li [Hi ->]].
  apply adapt_semantic_boundaries_nth in Hj. destruct Hj as [lj [Hj ->]].
  apply add_start_boundary_In. apply add_start_boundary_In in Hb.
  destruct Hb as [->|Hb]; [now left|right].
  rewrite Forall_forall in Hasc.
  rewrite adapt_level_full_scan_eq
    by (try apply ascending_strongly, Hasc; eauto using nth_error_In).
  apply adapt_level_In in Hb. destruct Hb as [[x [Hx ->]] Hr].
  apply full_scan_In. split; [|exact Hr].
  exists x. split; [|reflexivity].
  now apply (Hsub i j li lj).
Qed.

(** What the Extractor returns is fit for the Adapter.  For a well-formed
    document and a request that names "sentences" and "tokens" at most once
    each, every window with [added_chars_len >= 0] gives a hierarchy with
    one level for each requested name, with the subset invariant, and with
    levels in strictly ascending order that start with 0. *)
Theorem adapted_extraction_invariants (doc : document)
  (chunk_types sentence_boundary_chars token_boundary_chars : list string)
  (levels : list (list Z))
  (chunk_char_offset chunk_len added_chars_len added_chars_end_pos : Z) :
  well_formed_document doc sentence_boundary_chars token_boundary_chars ->
  (count_occ string_dec chunk_types "sentences" <= 1)%nat ->
  (count_occ string_dec chunk_types "tokens" <= 1)%nat ->
  get_semantic_bounderies doc chunk_types sentence_boundary_chars
    token_boundary_chars = Ok levels ->
  0 <= added_chars_len ->
  List.length (adapt_semantic_boundaries levels chunk_char_offset chunk_len
                 added_chars_len added_chars_end_pos)
  = List.length chunk_types
  /\ subset_invariant
       (adapt_semantic_boundaries levels chunk_char_offset chunk_len
          added_chars_len added_chars_end_pos)
  /\ Forall well_formed_level
       (adapt_semantic_boundaries levels chunk_char_offset chunk_len
          added_chars_len added_chars_end_pos).
Proof.
  intros Hwf Hcs Hct H Hlen.
  apply get_semantic_bounderies_inv_starts in H.
  destruct H as [ss [ts [boundaries [h [Hst [Hc ->]]]]]].
  destruct (document_starts_well_formed _ _ _ _ _ Hwf Hst) as [Hs Ht].
  pose proof (collected_levels_well_formed _ _ _ _ _ _ Hs Ht Hc) as Hlv.
  assert (Hasc : Forall ascending
                   (map (enforce_subsets boundaries h) boundaries)).
  { eapply Forall_impl; [|exact Hlv]. now intros l [Hl _]. }
  split; [|split].
  - rewrite adapt_semantic_boundaries_length, length_map.
    exact (collect_levels_length _ _ _ _ _ _ Hc).
  - apply adapt_keeps_subset_invariant; [exact Hasc| |exact Hlen].
    rewrite enforce_subsets_from. apply enforce_from_subset_invariant.
    exact (collect_levels_NoDup _ _ Hcs Hct _ _ _ _ Hc).
  - unfold adapt_semantic_boundaries. rewrite map_map.
    apply Forall_map. eapply Forall_impl; [|exact Hasc].
    intros level Hl. cbv beta.
    apply adapt_level_well_formed; [exact Hlen|now apply ascending_strongly].
Qed.

Lemma adapted_extraction_invariants_witness :
  subset_invariant
    (adapt_semantic_boundaries
       [[0]; [0; 15; 29]; [0; 10; 15; 24; 29]; [0; 3; 10; 15; 19; 24; 29]]
       10 14 0 0)
  /\ Forall well_formed_level
       (adapt_semantic_boundaries
          [[0]; [0; 15; 29]; [0; 10; 15; 24; 29];
           [0; 3; 10; 15; 19; 24; 29]]
          10 14 0 0).
Proof.
  apply (adapted_extraction_invariants
           (PlainText "Hi there, you. How are: you? Fine")
           default_chunk_types default_sentence_boundary_chars
           default_token_boundary_chars).
  - apply default_delimiters_proper.
  - simpl. lia.
  - simpl. lia.
  - reflexivity.
  - lia.
Defined.

(** ** The empty text *)

Lemma match_here_all_empty (alts : list string) (s : string) :
  (forall d, In d alts -> d = "") ->
  Re.match_here alts true s = None.
Proof.
  induction alts as [|d alts IH]; intros H; simpl; [reflexivity|].
  rewrite (H d (or_introl eq_refl)). simpl. rewrite andb_false_r.
  apply IH. intros d' Hd'. apply H. now right.
Qed.

Lemma split_offsets_empty_text (delimiters : list string) :
  uniform_delimiters delimiters -> proper_delimiters delimiters ->
  get_split_offsets "" delimiters = Ok [0].
Proof.
  intros [Hne Hu] Hp. destruct delimiters as [|d0 rest] eqn:E;
    [contradiction|]. rewrite <- E in *.
  assert (Hin : In d0 delimiters) by (rewrite E; now left).
  rewrite (get_split_offsets_uniform "" delimiters d0 Hin)
    by (intros d Hd; now apply Hu).
  unfold Re.split. rewrite ReFacts.split_from_no_occurrence; [reflexivity|].
  intros d Hd. specialize (Hp d Hd). destruct d; [congruence|reflexivity].
Qed.

(** The empty text has the single offset 0, but two offsets 0, 0 when the
    delimiters are empty strings: the empty delimiter then matches once, at
    the end of the text. *)
Theorem get_split_offsets_empty_text (delimiters : list string) :
  uniform_delimiters delimiters ->
  (proper_delimiters delimiters -> get_split_offsets "" delimiters = Ok [0])
  /\ ((forall d, In d delimiters -> d = "") ->
      get_split_offsets "" delimiters = Ok [0; 0]).
Proof.
  intros Hu. split; [now apply split_offsets_empty_text|].
  intros Hall. destruct Hu as [Hne Hu].
  destruct delimiters as [|d0 rest] eqn:E; [contradiction|].
  rewrite <- E in *.
  assert (Hin : In d0 delimiters) by (rewrite E; now left).
  rewrite (get_split_offsets_uniform "" delimiters d0 Hin)
    by (intros d Hd; now apply Hu).
  rewrite (Hall d0 Hin). unfold Re.split. cbn [Re.split_from].
  rewrite (match_here_all_empty delimiters "" Hall).
  rewrite E at 1. rewrite (Hall d0 Hin). reflexivity.
Qed.

Lemma get_split_offsets_empty_text_witness :
  get_split_offsets "" [". "; "? "; "! "] = Ok [0]
  /\ get_split_offsets "" [""] = Ok [0; 0].
Proof.
  split.
  - apply get_split_offsets_empty_text.
    + split; [discriminate|].
      intros d1 d2 H1 H2; simpl in H1, H2;
        repeat match goal with
               | H : _ \/ _ |- _ => destruct H as [<-|H]
               | H : False |- _ => contradiction
               end; reflexivity.
    + intros d Hd; simpl in Hd;
        repeat match goal with
               | H : _ \/ _ |- _ => destruct H as [<-|H]
               | H : False |- _ => contradiction
               end; discriminate.
  - apply get_split_offsets_empty_text.
    + split; [discriminate|].
      intros d1 d2 [<-|[]] [<-|[]]. reflexivity.
    + intros d [<-|[]]. reflexivity.
Defined.

(** The second loop writes nothing when every level holds the same
    offsets. *)
Lemma enforce_from_fixed (level : list Z) (boundaries : list list_id) :
  forall h,
    (forall r, In r boundaries -> h r = level) ->
    enforce_from boundaries h = h.
Proof.
  induction boundaries as [|ri finer IH]; intros h Hall; [reflexivity|].
  cbn [enforce_from].
  assert (Hinner : fold_left (fun h rj => propagate h ri rj) finer h = h).
  { assert (Hgen : forall fs, incl fs finer ->
               fold_left (fun h rj => propagate h ri rj) fs h = h).
    { induction fs as [|rj fs IHfs]; intros Hincl; [reflexivity|].
      cbn [fold_left].
      assert (Hp : propagate h ri rj = h).
      { apply fold_insert_missing_present.
        rewrite (Hall ri (or_introl eq_refl)).
        rewrite (Hall rj (or_intror (Hincl rj (or_introl eq_refl)))).
        apply incl_refl. }
      rewrite Hp. apply IHfs. intros r Hr. apply Hincl. now right. }
    apply Hgen, incl_refl. }
  rewrite Hinner. apply IH. intros r Hr. apply Hall. now right.
Qed.

Lemma raw_level_empty_text (chunk_type : string) :
  In chunk_type known_chunk_types ->
  raw_level "" [0] [0] chunk_type = Ok [0].
Proof.
  intros [<-|[<-|[<-|[<-|[]]]]]; reflexivity.
Qed.

Lemma map_constant_levels (h : store) (level : list Z) :
  forall (refs : list list_id) (chunk_types : list string),
    List.length refs = List.length chunk_types ->
    (forall r, In r refs -> h r = level) ->
    map h refs = map (fun _ => level) chunk_types.
Proof.
  induction refs as [|r refs IH]; intros [|ct cts] Hlen Hall;
    try discriminate; [reflexivity|].
  cbn [map]. rewrite (Hall r (or_introl eq_refl)). f_equal.
  apply IH; [simpl in Hlen; lia|]. intros r' Hr'. apply Hall. now right.
Qed.

(** For the empty text every requested level is the single offset 0
    (known names, delimiters that pass the check of the Splitter and are
    not empty strings). *)
Theorem extractor_empty_text
  (chunk_types sentence_boundary_chars token_boundary_chars : list string) :
  uniform_delimiters sentence_boundary_chars ->
  uniform_delimiters token_boundary_chars ->
  proper_delimiters sentence_boundary_chars ->
  proper_delimiters token_boundary_chars ->
  (forall ct, In ct chunk_types -> In ct known_chunk_types) ->
  get_semantic_bounderies (PlainText "") chunk_types
    sentence_boundary_chars token_boundary_chars
  = Ok (map (fun _ => [0]) chunk_types).
Proof.
  intros Hus Hut Hps Hpt Hk.
  rewrite (get_semantic_bounderies_starts (PlainText "") chunk_types
             sentence_boundary_chars token_boundary_chars [0] [0])
    by (split; now apply split_offsets_empty_text).
  cbn [document_text].
  destruct (collect_levels_known "" chunk_types Hk 0%nat (init_store [0] [0]))
    as [refs [h Hc]].
  rewrite Hc. cbn [bind]. f_equal.
  assert (Hall : forall r, In r refs -> h r = [0]).
  { intros r Hr. destruct (In_nth_error _ _ Hr) as [i Hi].
    assert (Hlt : (i < List.length chunk_types)%nat).
    { rewrite <- (collect_levels_length _ _ _ _ _ _ Hc).
      apply nth_error_Some. congruence. }
    destruct (nth_error chunk_types i) as [ct|] eqn:Hct;
      [|apply nth_error_None in Hct; lia].
    pose proof (collect_levels_raw "" [0] [0] chunk_types 0%nat
                  (init_store [0] [0]) refs h eq_refl eq_refl Hc i ct r
                  Hct Hi) as Hraw.
    rewrite raw_level_empty_text in Hraw
      by (apply Hk; eapply nth_error_In; exact Hct).
    now injection Hraw as <-. }
  rewrite enforce_subsets_from, (enforce_from_fixed [0] refs h Hall).
  apply map_constant_levels; [|exact Hall].
  exact (collect_levels_length _ _ _ _ _ _ Hc).
Qed.

Lemma extractor_empty_text_witness :
  get_semantic_bounderies (PlainText "") default_chunk_types
    default_sentence_boundary_chars default_token_boundary_chars
  = Ok [[0]; [0]; [0]; [0]].
Proof.
  apply (extractor_empty_text default_chunk_types).
  - apply (default_delimiters_fit (PlainText "")).
  - apply (default_delimiters_fit (PlainText "")).
  - apply (default_delimiters_proper "").
  - apply (default_delimiters_proper "").
  - intros ct Hct. exact Hct.
Defined.

(** * Requests in the order of the hierarchy *)

Lemma chunk_rank_sentences (chunk_type : string) :
  chunk_rank chunk_type = chunk_rank "sentences" -> chunk_type = "sentences".
Proof.
  unfold chunk_rank at 1.
  destruct (String.eqb_spec chunk_type "paragraphs"); [discriminate|].
  destruct (String.eqb_spec chunk_type "sentences"); [trivial|].
  destruct (String.eqb_spec chunk_type "subparts"); [discriminate|].
  destruct (String.eqb_spec chunk_type "tokens"); discriminate.
Qed.

Lemma chunk_rank_tokens (chunk_type : string) :
  chunk_rank chunk_type = chunk_rank "tokens" -> chunk_type = "tokens".
Proof.
  unfold chunk_rank at 1.
  destruct (String.eqb_spec chunk_type "paragraphs"); [discriminate|].
  destruct (String.eqb_spec chunk_type "sentences"); [discriminate|].
  destruct (String.eqb_spec chunk_type "subparts"); [discriminate|].
  destruct (String.eqb_spec chunk_type "tokens"); [trivial|discriminate].
Qed.

(** In a request in the order of the hierarchy, a name that comes again
    comes again at once. *)
Lemma coarsest_first_repeat (ct : string) (rest : list string) :
  (forall c, chunk_rank c = chunk_rank ct -> c = ct) ->
  coarsest_first (ct :: rest) -> In ct rest ->
  exists rest', rest = ct :: rest'.
Proof.
  intros Hinj Hs Hin. apply StronglySorted_inv in Hs.
  destruct Hs as [Hs Hct]. destruct rest as [|c1 rest1]; [contradiction|].
  assert (Hc1 : c1 = ct).
  { destruct Hin as [E|Hin]; [exact E|]. apply Hinj.
    pose proof (Forall_inv Hct) as Hle. cbv beta in Hle.
    apply StronglySorted_inv in Hs. destruct Hs as [_ Hc1].
    rewrite Forall_forall in Hc1. specialize (Hc1 ct Hin). cbv beta in Hc1.
    lia. }
  subst c1. now exists rest1.
Qed.

(** The second loop establishes the subset invariant also when a list
    stands at several levels, as long as these are neighbours. *)
Lemma enforce_from_subset_invariant_repeats (boundaries : list list_id) :
  adjacent_repeats boundaries ->
  forall h, subset_invariant (map (enforce_from boundaries h) boundaries).
Proof.
  induction 1 as [|ri finer Hri _ IH|r finer _ IH]; intros h.
  - apply subset_invariant_nil.
  - cbn [map enforce_from]. apply subset_invariant_cons. split.
    + apply Forall_map, Forall_forall. intros rj Hrj x Hx.
      rewrite enforce_from_other, inner_loop_other in Hx by exact Hri.
      now apply enforce_from_mono, inner_loop_adds.
    + apply IH.
  - assert (Hstep : enforce_from (r :: r :: finer) h
                    = enforce_from (r :: finer)
                        (fold_left (fun h rj => propagate h r rj) finer h)).
    { change (enforce_from (r :: r :: finer) h)
        with (enforce_from (r :: finer)
                (fold_left (fun h rj => propagate h r rj) finer
                   (propagate h r r))).
      now rewrite propagate_same. }
    rewrite Hstep.
    specialize (IH (fold_left (fun h rj => propagate h r rj) finer h)).
    remember (enforce_from (r :: finer)
                (fold_left (fun h rj => propagate h r rj) finer h)) as h'.
    change (subset_invariant (h' r :: map h' (r :: finer))).
    apply subset_invariant_cons. split; [|exact IH].
    cbn [map] in *. apply subset_invariant_cons in IH.
    destruct IH as [Hall _].
    constructor; [apply incl_refl|exact Hall].
Qed.

(** A request in the order of the hierarchy puts a list that it names more
    than once at neighbouring levels. *)
Lemma collect_levels_adjacent_repeats (text : string)
  (chunk_types : list string) :
  coarsest_first chunk_types ->
  forall k h refs h',
    collect_levels text chunk_types k h = Ok (refs, h') ->
    adjacent_repeats refs.
Proof.
  induction chunk_types as [|ct rest IH]; intros Hs k h refs h' Hc.
  - simpl in Hc. injection Hc as <- _. constructor.
  - pose proof Hs as Hs0. apply StronglySorted_inv in Hs.
    destruct Hs as [Hs _].
    apply collect_levels_cons_inv in Hc.
    destruct Hc as [r0 [h1 [rs [Hl [Hc ->]]]]].
    pose proof (IH Hs _ _ _ _ Hc) as Hrs.
    assert (Hshared : forall name,
               ct = name -> r0 = (if (name =? "sentences")%string
                                  then sentence_start_chars
                                  else token_start_chars) ->
               (forall c, chunk_rank c = chunk_rank name -> c = name) ->
               (In r0 rs -> In name rest) ->
               (forall h0 r h2,
                  chunk_level text (S k) name h0 = Ok (r, h2) -> r = r0) ->
               adjacent_repeats (r0 :: rs)).
    { intros name -> Hr0 Hinj Hin Hsame.
      destruct (in_dec list_id_eq_dec r0 rs) as [Hy|Hn];
        [|now apply adjacent_repeats_fresh].
      destruct (coarsest_first_repeat name rest Hinj Hs0 (Hin Hy))
        as [rest' ->].
      apply collect_levels_cons_inv in Hc.
      destruct Hc as [r1 [h2 [rs' [Hl1 [_ ->]]]]].
      rewrite (Hsame _ _ _ Hl1) in *.
      now apply adjacent_repeats_same. }
    pose proof (collect_levels_refs _ _ _ _ _ _ Hc) as Hrefs.
    apply chunk_level_inv in Hl.
    destruct Hl as [[_ [-> _]]|[[-> [-> _]]|[[_ [-> _]]|[-> [-> _]]]]].
    + apply adjacent_repeats_fresh; [|exact Hrs].
      intros Hin. specialize (Hrefs _ Hin). simpl in Hrefs. lia.
    + apply (Hshared "sentences"); try reflexivity.
      * apply chunk_rank_sentences.
      * intros Hin. exact (Hrefs _ Hin).
      * intros h0 r h2 Hl1. apply chunk_level_inv in Hl1.
        destruct Hl1 as [[E _]|[[_ [-> _]]|[[E _]|[E _]]]];
          try discriminate. reflexivity.
    + apply adjacent_repeats_fresh; [|exact Hrs].
      intros Hin. specialize (Hrefs _ Hin). simpl in Hrefs. lia.
    + apply (Hshared "tokens"); try reflexivity.
      * apply chunk_rank_tokens.
      * intros Hin. exact (Hrefs _ Hin).
      * intros h0 r h2 Hl1. apply chunk_level_inv in Hl1.
        destruct Hl1 as [[E _]|[[E _]|[[E _]|[_ [-> _]]]]];
          try discriminate. reflexivity.
Qed.

(** C1 (subset invariant of the Extractor).  For every document and every
    request drawn from "paragraphs", "sentences", "subparts", "tokens" in
    the order that the docstring asks for, from larger chunks to smaller
    ones, with or without repeated names, the hierarchy that
    [get_semantic_bounderies] returns has the subset invariant: for levels
    [i < j], every offset of level [i] is an offset of level [j]. *)
Theorem extractor_subset_invariant (doc : document)
  (chunk_types sentence_boundary_chars token_boundary_chars : list string)
  (levels : list (list Z)) :
  coarsest_first chunk_types ->
  get_semantic_bounderies doc chunk_types sentence_boundary_chars
    token_boundary_chars = Ok levels ->
  subset_invariant levels.
Proof.
  intros Hs Hr.
  apply get_semantic_bounderies_inv in Hr.
  destruct Hr as [ss [ts [boundaries [h [Hc ->]]]]].
  rewrite enforce_subsets_from.
  apply enforce_from_subset_invariant_repeats.
  exact (collect_levels_adjacent_repeats _ _ Hs _ _ _ _ Hc).
Qed.

Lemma extractor_subset_invariant_witness :
  subset_invariant
    [[0]; [0; 15; 29]; [0; 15; 29]; [0; 10; 15; 24; 29];
     [0; 3; 10; 15; 19; 24; 29]].
Proof.
  apply (extractor_subset_invariant
           (PlainText "Hi there, you. How are: you? Fine")
           ["paragraphs"; "sentences"; "sentences"; "subparts"; "tokens"]
           default_sentence_boundary_chars default_token_boundary_chars).
  - unfold coarsest_first. repeat constructor.
  - reflexivity.
Defined.

(** C5 (insertion shift).  With [added_chars_end_pos = 0] and
    [added_chars_len >= 0] characters added, an offset [b] that the inner
    loop reaches has its local offset [b - chunk_char_offset] increased by
    [added_chars_len] when that local offset is non-negative, before the
    range check; [b] is kept exactly when [b - chunk_char_offset >= 0] and
    [b - chunk_char_offset + added_chars_len <= chunk_len], and the kept
    value is [b - chunk_char_offset + added_chars_len]. *)
Theorem adapt_shift_before_range_check
  (chunk_char_offset chunk_len added_chars_len : Z)
  (pre : list Z) (b : Z) (post : list Z) :
  0 <= added_chars_len ->
  Forall (fun x => adapt_offset chunk_char_offset chunk_len added_chars_len 0
                     x <> Break) pre ->
  let local := b - chunk_char_offset in
  let kept := adapt_level chunk_char_offset chunk_len added_chars_len 0 in
  shift_offset chunk_char_offset added_chars_len 0 b
    = (if 0 <=? local then local + added_chars_len else local)
  /\ (forall v,
       adapt_offset chunk_char_offset chunk_len added_chars_len 0 b = Keep v
       <-> local >= 0 /\ local + added_chars_len <= chunk_len
           /\ v = local + added_chars_len)
  /\ kept (pre ++ b :: post)%list
     = (kept pre
        ++ match adapt_offset chunk_char_offset chunk_len added_chars_len 0 b
           with
           | Keep v => v :: kept post
           | Skip => kept post
           | Break => []
           end)%list.
Proof.
  intros Hlen Hpre local kept.
  assert (Hshift : shift_offset chunk_char_offset added_chars_len 0 b
                   = if 0 <=? local then local + added_chars_len else local).
  { unfold shift_offset; cbv zeta. now rewrite Z.geb_leb. }
  split; [exact Hshift|]. split.
  - intros v. rewrite adapt_offset_Keep, Hshift.
    destruct (Z.leb_spec 0 local); lia.
  - unfold kept. rewrite adapt_level_app by exact Hpre. reflexivity.
Qed.

Lemma adapt_shift_before_range_check_witness :
  shift_offset 0 5 0 3 = 8
  /\ adapt_offset 0 20 5 0 3 = Keep 8
  /\ adapt_level 0 20 5 0 [0; 3; 10] = [5; 8; 15].
Proof.
  assert (Hlen : 0 <= 5) by lia.
  assert (Hpre : Forall (fun x => adapt_offset 0 20 5 0 x <> Break) [0])
    by (repeat constructor; discriminate).
  destruct (adapt_shift_before_range_check 0 20 5 [0] 3 [10] Hlen Hpre)
    as [Hs [Hk Hl]].
  split; [exact Hs|]. split.
  - apply Hk. lia.
  - exact Hl.
Defined.
